(** * Boundary search and the generic shrinker driver of Hypothesis

    A shallow embedding of
    [hypothesis/internal/conjecture/shrinking/common.py]:

    - [find_integer], the linear / exponential / binary boundary search;
    - the [Shrinker] base class: [incorporate], [consider], [run] and
      [shrink], with the subclass hooks as parameters;

    and of the predicate of [test_lot_of_dead_nodes]
    ([tests/nocover/test_conjecture_engine.py]), run on a model of the
    conjecture engine that follows its specification, the engine itself
    not being among the sources at hand.

    Python integers are unbounded, so they are [Z]; [//] is floor division,
    which is [Z.div].  A Python callable may have side effects, so the
    callbacks [f] and [predicate] thread a state of an arbitrary type.
    Loops that the source does not bound ([while f(hi)], the full-mode loop
    of [run]) take a fuel argument; running out of fuel is reported as
    [None] and never confused with a result. *)

From stdpp Require Import base numbers list gmap.

Local Open Scope Z_scope.

(** ** [find_integer] *)

Module FindInteger.

Section Search.
(** The state the callback may read and write. *)
Context {St : Type}.

(** [f(i)], as a state transformer. *)
Variable f : Z → St → bool * St.

(** [for i in range(1, 5): if not f(i): return i - 1], over the list of
    the remaining values of [i].  [None] means that the loop ran to its
    end without returning. *)
Fixpoint linear_scan (range : list Z) (s : St) : option Z * St :=
  match range with
  | [] => (None, s)
  | i :: range' =>
      let '(b, s') := f i s in
      if b then linear_scan range' s' else (Some (i - 1), s')
  end.

(** [while f(hi): lo = hi; hi *= 2].  The result is the pair [(lo, hi)]
    at loop exit, or [None] when the fuel ran out first. *)
Fixpoint probe_up (fuel : nat) (lo hi : Z) (s : St) : option (Z * Z) * St :=
  match fuel with
  | O => (None, s)
  | S fuel' =>
      let '(b, s') := f hi s in
      if b then probe_up fuel' hi (hi * 2) s' else (Some (lo, hi), s')
  end.

(** [while lo + 1 < hi: mid = (lo + hi) // 2; ...; return lo]. *)
Fixpoint bisect (fuel : nat) (lo hi : Z) (s : St) : option Z * St :=
  match fuel with
  | O => (None, s)
  | S fuel' =>
      if lo + 1 <? hi then
        let mid := (lo + hi) `div` 2 in
        let '(b, s') := f mid s in
        if b then bisect fuel' mid hi s' else bisect fuel' lo mid s'
      else (Some lo, s)
  end.

(** The whole function.  [fuel] bounds the number of iterations of each
    of the two [while] loops. *)
Definition find_integer (fuel : nat) (s : St) : option Z * St :=
  match linear_scan [1; 2; 3; 4] s with
  | (Some r, s1) => (Some r, s1)
  | (None, s1) =>
      match probe_up fuel 4 5 s1 with
      | (None, s2) => (None, s2)
      | (Some (lo, hi), s2) => bisect fuel lo hi s2
      end
  end.
End Search.

(** A predicate without side effects, as a callback on the trivial state. *)
Definition pure_pred (p : Z → bool) : Z → unit → bool * unit :=
  fun i s => (p i, s).

(** A callback wrapped so that every call appends its argument to a log
    kept next to the callback's own state (oldest call first). *)
Definition recording {St : Type} (f : Z → St → bool * St)
    : Z → St * list Z → bool * (St * list Z) :=
  fun i '(s, log) => let '(b, s') := f i s in (b, (s', log ++ [i])).

(** [f(i) = (i <= n)] *)
Definition below (n : Z) : Z → bool := fun i => i <=? n.

(** The probes of a call on a pure predicate, and its result. *)
Definition run_pure (fuel : nat) (p : Z → bool) : option Z * list Z :=
  let '(r, (_, log)) := find_integer (recording (pure_pred p)) fuel (tt, []) in
  (r, log).

End FindInteger.

(** ** The [Shrinker] base class *)

Module Shrinker.

(** The calls a session makes to its collaborators, in the order made.
    The log is ghost state: no decision of the driver reads it. *)
Inductive call (V : Type) : Type :=
| CheckInvariants (value : V)
| LeftIsBetter (left right : V)
| Predicate (value : V)
| ShortCircuit
| Preamble
| RunStep.
Arguments CheckInvariants {V} value.
Arguments LeftIsBetter {V} left right.
Arguments Predicate {V} value.
Arguments ShortCircuit {V}.
Arguments Preamble {V}.
Arguments RunStep {V}.

(** The attributes set by [__init__].  [world] is whatever state the
    acceptance predicate reads and writes; [seen] is [__seen]. *)
Record shrinker (V W R : Type) `{Countable V} : Type := MkShrinker {
  current : V;
  random : R;
  full : bool;
  changes : Z;
  seen : gset V;
  world : W;
  calls : list (call V);
}.
Arguments MkShrinker {V W R _ _} current random full changes seen world calls.
Arguments current {V W R _ _} s.
Arguments random {V W R _ _} s.
Arguments full {V W R _ _} s.
Arguments changes {V W R _ _} s.
Arguments seen {V W R _ _} s.
Arguments world {V W R _ _} s.
Arguments calls {V W R _ _} s.

(** What a subclass method can do to the session: return, read
    [self.current] or [self.changes], or call [consider] / [incorporate]
    and go on with the answer. *)
Inductive prog (V A : Type) : Type :=
| Ret (a : A)
| GetCurrent (k : V → prog V A)
| GetChanges (k : Z → prog V A)
| Consider (value : V) (k : bool → prog V A)
| Incorporate (value : V) (k : bool → prog V A).
Arguments Ret {V A} a.
Arguments GetCurrent {V A} k.
Arguments GetChanges {V A} k.
Arguments Consider {V A} value k.
Arguments Incorporate {V A} value k.

Section Class.
(** Candidate values are hashable and compared with [==]. *)
Context {V : Type} `{Countable V}.
(** [W]: state of the predicate; [R]: the random source; [U]: the
    attributes a subclass adds. *)
Context {W R U : Type}.

Local Abbreviation session := (shrinker V W R).

(** Overridable methods.  [check_invariants] returns nothing and is
    [pass] in the base class, so it shows up in the call log only. *)
Variable make_immutable : V → V.
Variable left_is_better : V → V → bool.
(** [__predicate] *)
Variable predicate : V → W → bool * W.

Definition log (c : call V) (s : session) : session :=
  MkShrinker (current s) (random s) (full s) (changes s) (seen s)
             (world s) (calls s ++ [c]).

Definition mark_seen (value : V) (s : session) : session :=
  MkShrinker (current s) (random s) (full s) (changes s)
             ({[value]} ∪ seen s) (world s) (calls s).

Definition set_world (w : W) (s : session) : session :=
  MkShrinker (current s) (random s) (full s) (changes s) (seen s)
             w (calls s).

(** [self.changes += 1; self.current = value] *)
Definition commit (value : V) (s : session) : session :=
  MkShrinker value (random s) (full s) (changes s + 1) (seen s)
             (world s) (calls s).

(** [__init__] *)
Definition init (initial : V) (w : W) (rnd : R) (full : bool) : session :=
  MkShrinker (make_immutable initial) rnd full 0 ∅ w [].

Definition incorporate (value : V) (s : session) : bool * session :=
  let value := make_immutable value in
  let s := log (CheckInvariants value) s in
  let s := log (LeftIsBetter value (current s)) s in
  if negb (left_is_better value (current s)) then (false, s)
  else if bool_decide (value ∈ seen s) then (false, s)
  else
    let s := mark_seen value s in
    let s := log (Predicate value) s in
    let '(b, w) := predicate value (world s) in
    let s := set_world w s in
    if b then (true, commit value s) else (false, s).

(** The four ways through [incorporate], as a relation between the
    canonical value, the session before, the answer and the session
    after: not better, already seen, predicate false, predicate true. *)
Inductive incorporate_path (value : V) (s : session) : bool → session → Prop :=
| path_not_better :
    left_is_better value (current s) = false →
    incorporate_path value s false
      (MkShrinker (current s) (random s) (full s) (changes s) (seen s) (world s)
         (calls s ++ [CheckInvariants value; LeftIsBetter value (current s)]))
| path_seen :
    left_is_better value (current s) = true → value ∈ seen s →
    incorporate_path value s false
      (MkShrinker (current s) (random s) (full s) (changes s) (seen s) (world s)
         (calls s ++ [CheckInvariants value; LeftIsBetter value (current s)]))
| path_rejected w :
    left_is_better value (current s) = true → value ∉ seen s →
    predicate value (world s) = (false, w) →
    incorporate_path value s false
      (MkShrinker (current s) (random s) (full s) (changes s)
         ({[value]} ∪ seen s) w
         (calls s ++ [CheckInvariants value; LeftIsBetter value (current s);
                      Predicate value]))
| path_accepted w :
    left_is_better value (current s) = true → value ∉ seen s →
    predicate value (world s) = (true, w) →
    incorporate_path value s true
      (MkShrinker value (random s) (full s) (changes s + 1)
         ({[value]} ∪ seen s) w
         (calls s ++ [CheckInvariants value; LeftIsBetter value (current s);
                      Predicate value])).

Definition consider (value : V) (s : session) : bool * session :=
  let value := make_immutable value in
  if bool_decide (value = current s) then (true, s)
  else incorporate value s.

(** Running a subclass method against the session. *)
Fixpoint exec {A : Type} (p : prog V A) (s : session) : A * session :=
  match p with
  | Ret a => (a, s)
  | GetCurrent k => exec (k (current s)) s
  | GetChanges k => exec (k (changes s)) s
  | Consider value k =>
      let '(b, s') := consider value s in exec (k b) s'
  | Incorporate value k =>
      let '(b, s') := incorporate value s in exec (k b) s'
  end.

(** The abstract methods, given the subclass attributes. *)
Variable short_circuit : U → prog V (bool * U).
Variable preamble : U → prog V U.
Variable run_step : U → prog V U.

(** The calls [self.short_circuit()], [self.preamble()] and
    [self.run_step()], on the session and the subclass attributes. *)
Definition do_short_circuit (su : session * U) : bool * (session * U) :=
  let '((b, u'), s') := exec (short_circuit su.2) (log ShortCircuit su.1) in
  (b, (s', u')).

Definition do_preamble (su : session * U) : session * U :=
  let '(u', s') := exec (preamble su.2) (log Preamble su.1) in (s', u').

Definition do_run_step (su : session * U) : session * U :=
  let '(u', s') := exec (run_step su.2) (log RunStep su.1) in (s', u').

(** [while self.changes != prev: prev = self.changes; self.run_step()] *)
Fixpoint run_loop (fuel : nat) (prev : Z) (su : session * U)
    : option unit * (session * U) :=
  match fuel with
  | O => (None, su)
  | S fuel' =>
      if negb (changes su.1 =? prev) then
        run_loop fuel' (changes su.1) (do_run_step su)
      else (Some tt, su)
  end.

(** The value of [prev] at the [j]-th test of the loop condition, when
    the loop is entered with [prev] on [su]: the initial one, then
    [changes] as it was before the latest pass. *)
Definition prev_at (prev : Z) (su : session * U) (j : nat) : Z :=
  match j with
  | O => prev
  | S j' => changes (Nat.iter j' do_run_step su).1
  end.

(** [run]; [Some tt] when it returns, [None] when the fuel of the
    full-mode loop ran out. *)
Definition run (fuel : nat) (su : session * U)
    : option unit * (session * U) :=
  let '(b, su1) := do_short_circuit su in
  if b then (Some tt, su1)
  else
    let su2 := do_preamble su1 in
    if full su2.1 then run_loop fuel (-1) su2
    else (Some tt, do_run_step su2).

(** The classmethod [shrink]; [u0] is what the subclass constructor
    sets up.  [None]: [run] did not return within the fuel. *)
Definition shrink (fuel : nat) (initial : V) (w : W) (rnd : R)
    (full : bool) (u0 : U) : option V :=
  match run fuel (init initial w rnd full, u0) with
  | (Some _, (s, _)) => Some (current s)
  | (None, _) => None
  end.
End Class.

(** Projections of the call log. *)
Definition predicate_calls {V : Type} (l : list (call V)) : list V :=
  omap (fun c => match c with Predicate v => Some v | _ => None end) l.

(** Every value the predicate was called on is in the seen-set, and none
    was passed twice. *)
Definition tested_once {V W R : Type} `{Countable V} (s : shrinker V W R) : Prop :=
  NoDup (predicate_calls (calls s))
  ∧ ∀ v, v ∈ predicate_calls (calls s) → v ∈ seen s.

Definition is_method_call {V : Type} (c : call V) : bool :=
  match c with
  | ShortCircuit | Preamble | RunStep => true
  | _ => false
  end.

Definition method_calls {V : Type} (l : list (call V)) : list (call V) :=
  filter (fun c => is_method_call c = true) l.

End Shrinker.

(** ** A subclass to run the driver on

    Values are integers and smaller is better; [short_circuit] tries 0,
    [preamble] does nothing and a pass tries [current - 1].  The predicate
    is a threshold, or accepts nothing. *)

Module Countdown.
Import Shrinker.

Definition left_is_better (left right : Z) : bool := left <? right.

Definition short_circuit (u : unit) : prog Z (bool * unit) :=
  Consider 0 (fun b => Ret (b, u)).

Definition preamble (u : unit) : prog Z unit := Ret u.

Definition run_step (u : unit) : prog Z unit :=
  GetCurrent (fun c => Consider (c - 1) (fun _ => Ret u)).

Definition at_least (n : Z) : Z → unit → bool * unit :=
  fun v w => (n <=? v, w).

Definition never : Z → unit → bool * unit := fun _ w => (false, w).

Definition start (initial : Z) (full : bool) : shrinker Z unit unit * unit :=
  (init id initial tt tt full, tt).

Definition run (predicate : Z → unit → bool * unit) (fuel : nat)
    (su : shrinker Z unit unit * unit) : option unit * (shrinker Z unit unit * unit) :=
  Shrinker.run id left_is_better predicate short_circuit preamble run_step fuel su.

Definition shrink (predicate : Z → unit → bool * unit) (fuel : nat)
    (initial : Z) (full : bool) : option Z :=
  Shrinker.shrink id left_is_better predicate short_circuit preamble run_step
    fuel initial tt tt full tt.

End Countdown.

(** ** The conjecture engine on [test_lot_of_dead_nodes] *)

Module Engine.

(** Modelled from the spec: the four terminal statuses of an Execution
    Record (section 3); [ConjectureData] and [Status] are not in the
    sources at hand.  INTERESTING carries its interestingness label. *)
Inductive status : Type :=
| VALID
| INVALID
| INTERESTING (label : nat)
| OVERRUN.

Global Instance status_eq_dec : EqDecision status.
Proof. solve_decision. Defined.

(** Modelled from the spec: the label of a [mark_interesting()] call that
    names none, as in the test. *)
Definition default_label : nat := 0%nat.

(** Modelled from the spec: an Execution Record (sections 3 and 4.3).
    [supplied] is what is left of the buffer given up front, [drawn] the
    buffer of bytes consumed so far, [outcome] the terminal status once
    set, [budget] the configured maximum buffer size, [source] the
    randomness source and [cursor] the position in it. *)
Record record : Type := MkRecord {
  supplied : list Z;
  drawn : list Z;
  outcome : option status;
  budget : nat;
  source : nat → Z;
  cursor : nat;
}.

(** Modelled from the spec: the configuration object of section 6.  The
    seed stands for the randomness source it determines, an unending
    sequence of numbers. *)
Record config : Type := MkConfig {
  max_buffer_size : nat;
  max_examples : nat;
  shrinking_enabled : bool;
  seed : nat → Z;
}.

(** Modelled from the spec: what the Runner owns during a run (section
    3): the Prefix Tree, as the set of its nodes and the set of the dead
    ones, each node named by the byte path that leads to it from the
    root; the Result Cache; the Interesting-Examples Table; and its
    position in the randomness source. *)
Record runner : Type := MkRunner {
  explored : gset (list Z);
  dead : gset (list Z);
  cache : gmap (list Z) status;
  interesting : gmap nat (list Z);
  rand_pos : nat;
}.

(** Modelled from the spec: the 256 byte values that label the edges of a
    Prefix Tree node (section 3). *)
Definition byte_values : list Z := seqZ 0 256.

(** Modelled from the spec: shortlex order on buffers (section 3):
    shorter is better, and at equal length the lexicographically smaller
    one is. *)
Fixpoint lex_lt (a b : list Z) : bool :=
  match a, b with
  | x :: a', y :: b' => (x <? y) || ((x =? y) && lex_lt a' b')
  | _, _ => false
  end.

(** Modelled from the spec: the whole of the shortlex comparison, which
    is the [left_is_better] of a shrink session on buffers (section 4.5). *)
Definition shortlex (left right : list Z) : bool :=
  (length left <? length right)%nat
  || ((length left =? length right)%nat && lex_lt left right).

(** Modelled from the spec: setting the terminal status of a record,
    "reached at most once per record and never reverted" (section 3). *)
Definition conclude (st : status) (d : record) : record :=
  match outcome d with
  | Some _ => d
  | None =>
      MkRecord (supplied d) (drawn d) (Some st) (budget d) (source d) (cursor d)
  end.

(** Modelled from the spec: [mark_invalid()] and [mark_interesting(label)]
    (section 4.3).  That they abort the predicate is in the control flow
    of the predicate below. *)
Definition mark_invalid (d : record) : record := conclude INVALID d.

(** Modelled from the spec: [mark_interesting(label)] (section 4.3), the
    other terminal transition a predicate can ask for. *)
Definition mark_interesting (label : nat) (d : record) : record :=
  conclude (INTERESTING label) d.

(** Modelled from the spec: one byte of a draw (section 4.3): replayed
    from the supplied buffer if that is not exhausted, fresh from the
    randomness source otherwise; either way appended to the record's
    buffer. *)
Definition next_byte (d : record) : Z * record :=
  match supplied d with
  | b :: rest =>
      (b, MkRecord rest (drawn d ++ [b]) (outcome d) (budget d)
                   (source d) (cursor d))
  | [] =>
      let b := source d (cursor d) `mod` 256 in
      (b, MkRecord [] (drawn d ++ [b]) (outcome d) (budget d)
                   (source d) (S (cursor d)))
  end.

(** Modelled from the spec: the [n] bytes of one draw (section 4.3),
    taken one after the other. *)
Fixpoint next_bytes (n : nat) (d : record) : list Z * record :=
  match n with
  | O => ([], d)
  | S n' =>
      let '(b, d1) := next_byte d in
      let '(bs, d2) := next_bytes n' d1 in
      (b :: bs, d2)
  end.

(** Modelled from the spec: "draw N bytes" (section 4.3).  [None] is the
    abort of the predicate: the record already has its status (further
    draws are rejected), or the draw would exceed the buffer budget and
    the record becomes OVERRUN. *)
Definition draw_bytes (n : nat) (d : record) : option (list Z) * record :=
  match outcome d with
  | Some _ => (None, d)
  | None =>
      if (budget d <? length (drawn d) + n)%nat then (None, conclude OVERRUN d)
      else let '(bs, d') := next_bytes n d in (Some bs, d')
  end.

(** The predicate of [test_lot_of_dead_nodes]:
    [for i in range(5): if data.draw_bytes(1)[0] != i: data.mark_invalid()]
    and then [data.mark_interesting()], over what is left of the range. *)
Fixpoint lot_of_dead_nodes_from (range : list Z) (data : record) : record :=
  match range with
  | [] => mark_interesting default_label data
  | i :: range' =>
      match draw_bytes 1 data with
      | (Some bs, data') =>
          if negb (default 0 (head bs) =? i) then mark_invalid data'
          else lot_of_dead_nodes_from range' data'
      | (None, data') => data'
      end
  end.

Definition lot_of_dead_nodes (data : record) : record :=
  lot_of_dead_nodes_from [0; 1; 2; 3; 4] data.

Section Runner.
(** The randomness source and the user predicate. *)
Variable rnd : nat → Z.
Variable predicate : record → record.

(** Modelled from the spec: running the predicate on a record (section
    6): it "returns normally (implying VALID unless already marked)". *)
Definition execute (d : record) : record := conclude VALID (predicate d).

(** Modelled from the spec: the final status a record exposes to the
    caller (section 4.3). *)
Definition status_of (d : record) : status := default VALID (outcome d).

(** Modelled from the spec: the nodes on the path of a buffer, root
    first. *)
Definition prefixes (buf : list Z) : list (list Z) :=
  (fun n => take n buf) <$> seq 0 (S (length buf)).

(** Modelled from the spec: dead-ness "propagates upward (a node all of
    whose explored children are dead, with no unexplored children, becomes
    dead itself)" (section 3).  [rpath] is the reversed path of a node
    that has just become dead; its ancestors are visited from the nearest
    one up, as long as they die. *)
Fixpoint propagate (rpath : list Z) (dead : gset (list Z)) : gset (list Z) :=
  match rpath with
  | [] => dead
  | _ :: rparent =>
      let parent := reverse rparent in
      if forallb (fun c => bool_decide (parent ++ [c] ∈ dead)) byte_values
      then propagate rparent ({[parent]} ∪ dead)
      else dead
  end.

(** Modelled from the spec: the Interesting-Examples Table (section 3):
    an entry is created on the first discovery of a label and updated only
    by a strictly better buffer with the same label. *)
Definition record_interesting (st : status) (buf : list Z)
    (table : gmap nat (list Z)) : gmap nat (list Z) :=
  match st with
  | INTERESTING label =>
      match table !! label with
      | Some best => if shortlex buf best then <[label := buf]> table else table
      | None => <[label := buf]> table
      end
  | _ => table
  end.

(** Modelled from the spec: one step of GENERATING after the prefix is
    chosen (section 4.5): build an Execution Record from it, run the
    predicate, classify, update the Prefix Tree (insert the path of the
    executed buffer, mark its terminal node, propagate dead-ness; section
    4.4), the Result Cache and the Interesting-Examples Table.  The
    terminal node of every execution is dead, as scenario C requires of
    VALID ones too. *)
Definition test_function (size : nat) (prefix : list Z) (r : runner) : runner :=
  let d := execute (MkRecord prefix [] None size rnd (rand_pos r)) in
  let buf := drawn d in
  MkRunner (list_to_set (prefixes buf) ∪ explored r)
           (propagate (reverse buf) ({[buf]} ∪ dead r))
           (<[buf := status_of d]> (cache r))
           (record_interesting (status_of d) buf (interesting r))
           (cursor d).

(** Modelled from the spec: a choice "via the supplied randomness among
    live candidates" (section 4.4). *)
Definition choose (candidates : list Z) (pos : nat) : Z :=
  default 0 (candidates !! Z.to_nat (rnd pos `mod` Z.of_nat (length candidates))).

(** Modelled from the spec: [generate_novel_prefix] (section 4.4): "walk
    from the root, at each step preferring an unexplored or non-dead child
    (chosen via the supplied randomness among live candidates), appending
    bytes as visited; stop once no further forced continuation exists
    (either an unexplored edge or tree exhaustion)".  The walk is at most
    as long as the buffer budget, which is the fuel. *)
Fixpoint novel_prefix (fuel : nat) (node : list Z) (r : runner)
    : list Z * nat :=
  match fuel with
  | O => (node, rand_pos r)
  | S fuel' =>
      let live := filter (fun c => node ++ [c] ∉ dead r) byte_values in
      match live with
      | [] => (node, rand_pos r)
      | _ =>
          let c := choose live (rand_pos r) in
          let r' := MkRunner (explored r) (dead r) (cache r) (interesting r)
                             (S (rand_pos r)) in
          if bool_decide (node ++ [c] ∈ explored r)
          then novel_prefix fuel' (node ++ [c]) r'
          else (node ++ [c], rand_pos r')
      end
  end.

(** Modelled from the spec: GENERATING (section 4.5): "repeatedly obtain a
    novel prefix, build an Execution Record from it, run the user
    predicate, ...  Continue until a configured example-count ... budget
    is exhausted, or the Prefix Tree root goes dead". *)
Fixpoint generate (size : nat) (examples : nat) (r : runner) : runner :=
  match examples with
  | O => r
  | S examples' =>
      if bool_decide ([] ∈ dead r) then r
      else
        let '(prefix, pos) := novel_prefix size [] r in
        let r' := MkRunner (explored r) (dead r) (cache r) (interesting r) pos in
        generate size examples' (test_function size prefix r')
  end.

(** Modelled from the spec: replaying an exact buffer (sections 3 and
    4.5).  The classification of a buffer is a function of the buffer
    (the determinism law), so a replay has no fresh bytes to fall back on:
    its budget is the length of the buffer. *)
Definition replay (buf : list Z) : record :=
  execute (MkRecord buf [] None (length buf) rnd 0).

(** Modelled from the spec: the Result Cache in front of a re-execution
    (section 4.5): "re-execution of any exact buffer already in the
    Result Cache never re-invokes the predicate". *)
Definition cached_test (buf : list Z) (c : gmap (list Z) status)
    : status * gmap (list Z) status :=
  match c !! buf with
  | Some st => (st, c)
  | None => let st := status_of (replay buf) in (st, <[buf := st]> c)
  end.

(** Modelled from the spec: the acceptance predicate of a shrink session
    (section 4.5): "re-execute and check the result is still INTERESTING
    with the same label". *)
Definition still_interesting (label : nat) (buf : list Z)
    (c : gmap (list Z) status) : bool * gmap (list Z) status :=
  let '(st, c') := cached_test buf c in
  (bool_decide (st = INTERESTING label), c').

Section Shrinking.
(** The shrink passes, which the spec leaves open: any subclass methods. *)
Context {U : Type}.
Variable short_circuit : U → Shrinker.prog (list Z) (bool * U).
Variable preamble : U → Shrinker.prog (list Z) U.
Variable run_step : U → Shrinker.prog (list Z) U.
Variable u0 : U.

(** Modelled from the spec: SHRINKING for one label (section 4.5): the
    Shrinker Core over the label's buffer, with the acceptance predicate
    above and shortlex order, in full mode; "the minimized buffer replaces
    the table entry".  If the session does not reach its fixpoint within
    [fuel] passes the best buffer so far is kept (section 7). *)
Definition shrink_label (fuel : nat) (r : runner) (entry : nat * list Z)
    : runner :=
  let s := (Shrinker.run id shortlex (still_interesting entry.1)
              short_circuit preamble run_step fuel
              (Shrinker.init id entry.2 (cache r) (rand_pos r) true, u0)).2.1 in
  MkRunner (explored r) (dead r) (Shrinker.world s)
           (<[entry.1 := Shrinker.current s]> (interesting r)) (rand_pos r).

(** Modelled from the spec: SHRINKING (section 4.5), "for each
    interestingness label present in the Interesting-Examples Table". *)
Definition shrink_all (fuel : nat) (r : runner) : runner :=
  foldl (shrink_label fuel) r (map_to_list (interesting r)).

(** Modelled from the spec: one run of the Conjecture Runner (section
    4.5), GENERATING, then SHRINKING unless disabled, then DONE; the
    result is the Interesting-Examples Table it reports. *)
Definition run_engine (size examples : nat) (shrinking : bool) (fuel : nat)
    : gmap nat (list Z) :=
  let r := generate size examples (MkRunner {[ [] ]} ∅ ∅ ∅ 0%nat) in
  interesting (if shrinking then shrink_all fuel r else r).
End Shrinking.
End Runner.

(** Modelled from the spec: a run under a configuration object (section
    6); [fuel] is the shrink budget of section 4.5. *)
Definition conjecture_run {U : Type} (predicate : record → record)
    (short_circuit : U → Shrinker.prog (list Z) (bool * U))
    (preamble run_step : U → Shrinker.prog (list Z) U) (u0 : U)
    (cfg : config) (fuel : nat) : gmap nat (list Z) :=
  run_engine (seed cfg) predicate short_circuit preamble run_step u0
    (max_buffer_size cfg) (max_examples cfg) (shrinking_enabled cfg) fuel.

End Engine.

(** ** What the engine can see of [test_lot_of_dead_nodes] *)

Module DeadNodes.
Import Engine.

(** The one buffer the predicate marks interesting. *)
Definition target : list Z := [0; 1; 2; 3; 4].

(** The buffers on which an execution of the predicate can end: [target],
    or the first [i] bytes of it followed by a byte other than [i]. *)
Definition is_terminal (t : list Z) : Prop :=
  t = target
  ∨ ∃ (i : nat) (b : Z),
      (i < 5)%nat ∧ 0 ≤ b < 256 ∧ b ≠ Z.of_nat i ∧ t = take i target ++ [b].

Definition terminal_status (t : list Z) : status :=
  if bool_decide (t = target) then INTERESTING default_label else INVALID.

(** All of them, level by level. *)
Definition all_terminals : list (list Z) :=
  target ::
  (i ← seq 0 5;
   (fun b => take i target ++ [b])
     <$> filter (fun b => b ≠ Z.of_nat i) byte_values).

(** How many of them have not been executed yet. *)
Definition remaining (X : gset (list Z)) : nat :=
  length (filter (fun t => t ∉ X) all_terminals).

(** Level [j] of the tree is complete when every child of the [j]-th
    node of the path to [target] that ends an execution has been
    executed. *)
Definition complete (j : nat) (X : gset (list Z)) : Prop :=
  ∀ c, 0 ≤ c < 256 → c ≠ Z.of_nat j ∨ j = 4%nat → take j target ++ [c] ∈ X.

Definition spine_dead (i : nat) (X : gset (list Z)) : Prop :=
  ∀ j, (i ≤ j < 5)%nat → complete j X.

(** When a node is dead, in terms of the executed buffers [X]: it ended
    an execution, or it is on the way to [target] and every level from it
    on is complete. *)
Definition dead_when (X : gset (list Z)) (p : list Z) : Prop :=
  p ∈ X ∨ ∃ i, (i < 5)%nat ∧ p = take i target ∧ spine_dead i X.

(** A Result Cache is sound when each entry is what replaying its buffer
    gives. *)
Definition cache_sound (rnd : nat → Z) (c : gmap (list Z) status) : Prop :=
  ∀ buf st, c !! buf = Some st → st = status_of (replay rnd lot_of_dead_nodes buf).

(** While dead-ness climbs from level [k]: every node but those on the way
    to [target] at level [k] or less is settled, and these are not dead. *)
Definition climbing (X : gset (list Z)) (k : nat) (D : gset (list Z)) : Prop :=
  (∀ p, (∀ j, (j ≤ k)%nat → p ≠ take j target) → p ∈ D ↔ dead_when X p)
  ∧ (∀ j, (j ≤ k)%nat → take j target ∉ D).

(** What GENERATING maintains, with [X] the buffers executed so far (the
    keys of the Result Cache). *)
Record invariant (r : runner) : Prop := MkInvariant {
  inv_terminals : ∀ t, t ∈ dom (cache r) → is_terminal t;
  inv_explored : ∀ p,
    p ∈ explored r ↔ p = [] ∨ ∃ t, t ∈ dom (cache r) ∧ p `prefix_of` t;
  inv_dead : ∀ p, p ∈ dead r ↔ dead_when (dom (cache r)) p;
  inv_cache : ∀ t st, cache r !! t = Some st → st = terminal_status t;
  inv_interesting :
    interesting r
    = if bool_decide (target ∈ dom (cache r))
      then {[default_label := target]} else ∅;
}.

(** A shrink pass to run the engine with: try the buffer without its last
    byte. *)
Definition no_short_circuit (u : unit) : Shrinker.prog (list Z) (bool * unit) :=
  Shrinker.Ret (false, u).

Definition no_preamble (u : unit) : Shrinker.prog (list Z) unit :=
  Shrinker.Ret u.

Definition drop_last (u : unit) : Shrinker.prog (list Z) unit :=
  Shrinker.GetCurrent (fun buf =>
    Shrinker.Consider (take (length buf - 1) buf) (fun _ => Shrinker.Ret u)).

(** The settings of a run: buffers of up to 1024 bytes, up to 5000
    examples, shrinking on, and a randomness source. *)
Definition settings (rnd : nat → Z) : config := MkConfig 1024 5000 true rnd.

End DeadNodes.

(** * Instruments for the further properties *)

(** The log of [FindInteger.recording] with the answers next to the
    arguments. *)
Module Answers.
(** A callback wrapped so that every call appends its argument and its
    answer to a log kept next to the callback's own state (oldest call
    first). *)
Definition recording_answers {St : Type} (f : Z → St → bool * St)
    : Z → St * list (Z * bool) → bool * (St * list (Z * bool)) :=
  fun i '(s, log) => let '(b, s') := f i s in (b, (s', log ++ [(i, b)])).
End Answers.

(** A second subclass for the instances: the countdown of [Countdown]
    with an order that stops at 0. *)
Module NaturalCountdown.
Import Shrinker.
(** The countdown subclass on the natural numbers only: a value is better
    when it is smaller and not negative. *)
Definition left_is_better (left right : Z) : bool :=
  (0 <=? left) && (left <? right).

(** How far a value is from 0. *)
Definition distance (value : Z) : nat := Z.to_nat value.

Definition shrink (predicate : Z → unit → bool * unit) (fuel : nat)
    (initial : Z) (full : bool) : option Z :=
  Shrinker.shrink id left_is_better predicate Countdown.short_circuit
    Countdown.preamble Countdown.run_step fuel initial tt tt full tt.
End NaturalCountdown.

(** * Properties of [find_integer] *)

Module FindIntegerFacts.
Import FindInteger.

(** [mid = (lo + hi) // 2] lies strictly inside a gap of two or more. *)
Lemma midpoint_inside (lo hi : Z) :
  lo + 1 < hi → lo < (lo + hi) `div` 2 < hi.
Proof. intros Hlt. Z.div_mod_to_equations. lia. Qed.

Section Logs.
Context {St : Type}.
Variable f : Z → St → bool * St.

(** Recording is transparent: a recorded run is the plain run, with the
    probes appended to the log. The probes of the linear scan are an
    initial segment of the range. *)
Lemma linear_scan_recording (range : list Z) (s : St) (l : list Z) :
  ∃ ps, ps `prefix_of` range ∧
    linear_scan (recording f) range (s, l)
    = ((linear_scan f range s).1, ((linear_scan f range s).2, l ++ ps)).
Proof.
  revert s l. induction range as [|i range IH]; intros s l; simpl.
  - exists []. split; [done|]. by rewrite app_nil_r.
  - destruct (f i s) as [b s'] eqn:Hf. destruct b.
    + destruct (IH s' (l ++ [i])) as (ps & Hps & ->).
      exists (i :: ps). split; [by apply prefix_cons|].
      by rewrite <- app_assoc.
    + exists [i]. split; [|done]. apply prefix_cons, prefix_nil.
Qed.

(** The exponential probe visits [hi], [2 hi], [4 hi], ...: every probe is
    at least [hi], no two are equal, and at loop exit every probe is at
    most [lo] except the last one, which is [hi]. *)
Lemma probe_up_recording (fuel : nat) (lo hi : Z) (s : St) (l : list Z) :
  0 < hi → lo < hi →
  ∃ ps, NoDup ps ∧ (∀ x, x ∈ ps → hi ≤ x) ∧
    probe_up (recording f) fuel lo hi (s, l)
    = ((probe_up f fuel lo hi s).1, ((probe_up f fuel lo hi s).2, l ++ ps)) ∧
    match (probe_up f fuel lo hi s).1 with
    | Some (lo', hi') =>
        lo ≤ lo' ∧ lo' < hi' ∧ ∀ x, x ∈ ps → x ≤ lo' ∨ x = hi'
    | None => True
    end.
Proof.
  revert lo hi s l. induction fuel as [|fuel IH]; intros lo hi s l Hhi Hlo; simpl.
  - exists []. rewrite app_nil_r. repeat split; [constructor|].
    intros x Hx. by apply not_elem_of_nil in Hx.
  - destruct (f hi s) as [b s'] eqn:Hf. destruct b.
    + destruct (IH hi (hi * 2) s' (l ++ [hi])) as (ps & Hnd & Hge & -> & Hres);
        [lia|lia|].
      exists (hi :: ps). split; [|split; [|split]].
      * constructor; [|done]. intros Hin. apply Hge in Hin. lia.
      * intros x [->|Hin]%elem_of_cons; [lia|]. apply Hge in Hin. lia.
      * by rewrite <- app_assoc.
      * destruct (probe_up f fuel hi (hi * 2) s').1 as [[lo' hi']|]; [|done].
        destruct Hres as (H1 & H2 & H3). split; [lia|]. split; [done|].
        intros x [->|Hin]%elem_of_cons; [left; lia|by apply H3].
    + exists [hi]. simpl. split; [apply NoDup_singleton|].
      split; [intros x ->%list_elem_of_singleton; lia|]. split; [done|].
      split; [lia|]. split; [done|].
      intros x ->%list_elem_of_singleton. by right.
Qed.

(** The binary search only probes strictly inside the interval it was
    given, and never the same value twice. *)
Lemma bisect_recording (fuel : nat) (lo hi : Z) (s : St) (l : list Z) :
  ∃ ps, NoDup ps ∧ (∀ x, x ∈ ps → lo < x < hi) ∧
    bisect (recording f) fuel lo hi (s, l)
    = ((bisect f fuel lo hi s).1, ((bisect f fuel lo hi s).2, l ++ ps)).
Proof.
  revert lo hi s l. induction fuel as [|fuel IH]; intros lo hi s l; simpl.
  - exists []. rewrite app_nil_r. split; [apply NoDup_nil_2|].
    split; [|done]. intros x Hx. by apply not_elem_of_nil in Hx.
  - destruct (Z.ltb_spec (lo + 1) hi) as [Hlt|Hge].
    + set (mid := (lo + hi) `div` 2).
      assert (lo < mid < hi) as Hmid by by apply midpoint_inside.
      destruct (f mid s) as [b s'] eqn:Hf. destruct b.
      * destruct (IH mid hi s' (l ++ [mid])) as (ps & Hnd & Hin & ->).
        exists (mid :: ps). split; [|split].
        -- constructor; [|done]. intros Hx. apply Hin in Hx. lia.
        -- intros x [->|Hx]%elem_of_cons; [lia|]. apply Hin in Hx. lia.
        -- by rewrite <- app_assoc.
      * destruct (IH lo mid s' (l ++ [mid])) as (ps & Hnd & Hin & ->).
        exists (mid :: ps). split; [|split].
        -- constructor; [|done]. intros Hx. apply Hin in Hx. lia.
        -- intros x [->|Hx]%elem_of_cons; [lia|]. apply Hin in Hx. lia.
        -- by rewrite <- app_assoc.
    + exists []. rewrite app_nil_r. split; [apply NoDup_nil_2|].
      split; [|done]. intros x Hx. by apply not_elem_of_nil in Hx.
Qed.

Lemma range_1_5_prefix (ps : list Z) :
  ps `prefix_of` [1; 2; 3; 4] → NoDup ps ∧ ∀ x, x ∈ ps → 1 ≤ x ≤ 4.
Proof.
  intros [k Hk].
  assert (NoDup (ps ++ k)) as Hnd.
  { rewrite <- Hk. by apply (bool_decide_unpack _). }
  split; [by apply NoDup_app in Hnd as (? & _)|].
  intros x Hx. assert (x ∈ [1; 2; 3; 4]) as Hin by (rewrite Hk; set_solver).
  set_unfold in Hin. lia.
Qed.

(** The log of a whole call: it holds the probes of the plain run, which
    are pairwise distinct and all positive. *)
Lemma find_integer_recording (fuel : nat) (s : St) :
  ∃ ps, NoDup ps ∧ (∀ x, x ∈ ps → 1 ≤ x) ∧
    find_integer (recording f) fuel (s, [])
    = ((find_integer f fuel s).1, ((find_integer f fuel s).2, ps)).
Proof.
  unfold find_integer.
  destruct (linear_scan_recording [1; 2; 3; 4] s []) as (ps1 & Hpre & ->).
  apply range_1_5_prefix in Hpre as [Hnd1 Hin1].
  destruct (linear_scan f [1; 2; 3; 4] s) as [[r|] s1]; simpl.
  { exists ps1. split; [done|]. split; [|done]. intros x Hx. apply Hin1 in Hx. lia. }
  destruct (probe_up_recording fuel 4 5 s1 ps1) as (ps2 & Hnd2 & Hge2 & -> & Hexit);
    [lia|lia|].
  destruct (probe_up f fuel 4 5 s1) as [[[lo hi]|] s2]; simpl in *.
  - destruct Hexit as (Hlo & Hlt & Hout).
    destruct (bisect_recording fuel lo hi s2 (ps1 ++ ps2)) as (ps3 & Hnd3 & Hin3 & ->).
    destruct (bisect f fuel lo hi s2) as [r s3]; simpl.
    exists ((ps1 ++ ps2) ++ ps3). split; [|split; [|done]].
    + apply NoDup_app. split; [|split; [|done]].
      * apply NoDup_app. split; [done|]. split; [|done].
        intros x Hx1 Hx2. apply Hin1 in Hx1. apply Hge2 in Hx2. lia.
      * intros x [Hx|Hx]%elem_of_app Hx3; apply Hin3 in Hx3.
        -- apply Hin1 in Hx. lia.
        -- apply Hout in Hx. lia.
    + intros x [[Hx|Hx]%elem_of_app|Hx]%elem_of_app.
      * apply Hin1 in Hx. lia.
      * apply Hge2 in Hx. lia.
      * apply Hin3 in Hx. lia.
  - exists (ps1 ++ ps2). split; [|split; [|done]].
    + apply NoDup_app. split; [done|]. split; [|done].
      intros x Hx1 Hx2. apply Hin1 in Hx1. apply Hge2 in Hx2. lia.
    + intros x [Hx|Hx]%elem_of_app.
      * apply Hin1 in Hx. lia.
      * apply Hge2 in Hx. lia.
Qed.
End Logs.

Section Termination.
Context {St : Type}.
Variable f : Z → St → bool * St.

(** The binary search halves the gap, so it returns within a number of
    iterations logarithmic in the gap, whatever the callback answers. *)
Lemma bisect_returns (fuel : nat) (lo hi : Z) (s : St) :
  hi - lo ≤ 2 ^ Z.of_nat fuel → is_Some (bisect f (S fuel) lo hi s).1.
Proof.
  revert lo hi s. induction fuel as [|fuel IH]; intros lo hi s Hgap.
  - simpl in *. destruct (Z.ltb_spec (lo + 1) hi); [lia|]. by eexists.
  - rewrite Nat2Z.inj_succ, Z.pow_succ_r in Hgap by lia.
    change (bisect f (S (S fuel)) lo hi s) with
      (if lo + 1 <? hi then
         let mid := (lo + hi) `div` 2 in
         let '(b, s') := f mid s in
         if b then bisect f (S fuel) mid hi s' else bisect f (S fuel) lo mid s'
       else (Some lo, s)).
    destruct (Z.ltb_spec (lo + 1) hi) as [Hlt|Hge]; [|by eexists].
    simpl. destruct (f ((lo + hi) `div` 2) s) as [[] s'];
      apply IH; Z.div_mod_to_equations; lia.
Qed.
End Termination.

(** One iteration of each loop, for a predicate without side effects. *)
Lemma probe_up_pure_S (p : Z → bool) (fuel : nat) (lo hi : Z) :
  probe_up (pure_pred p) (S fuel) lo hi tt
  = if p hi then probe_up (pure_pred p) fuel hi (hi * 2) tt
    else (Some (lo, hi), tt).
Proof. reflexivity. Qed.

Lemma bisect_pure_S (p : Z → bool) (fuel : nat) (lo hi : Z) :
  bisect (pure_pred p) (S fuel) lo hi tt
  = if lo + 1 <? hi then
      if p ((lo + hi) `div` 2)
      then bisect (pure_pred p) fuel ((lo + hi) `div` 2) hi tt
      else bisect (pure_pred p) fuel lo ((lo + hi) `div` 2) tt
    else (Some lo, tt).
Proof. reflexivity. Qed.

Section Pure.
Variable p : Z → bool.

Lemma run_pure_spec (fuel : nat) :
  ∃ ps, NoDup ps ∧ (∀ x, x ∈ ps → 1 ≤ x) ∧
    run_pure fuel p = ((find_integer (pure_pred p) fuel tt).1, ps).
Proof.
  unfold run_pure.
  destruct (find_integer_recording (pure_pred p) fuel tt) as (ps & Hnd & Hpos & ->).
  destruct (find_integer (pure_pred p) fuel tt) as [r []]. by exists ps.
Qed.

(** The exponential probe stops at the first [hi * 2^k] where the
    predicate is false, if the fuel reaches that far ... *)
Lemma probe_up_stops (k fuel : nat) (lo hi : Z) :
  p (hi * 2 ^ Z.of_nat k) = false → (k < fuel)%nat → 0 < hi → lo < hi →
  ∃ lo' hi', probe_up (pure_pred p) fuel lo hi tt = (Some (lo', hi'), tt)
             ∧ lo ≤ lo' ∧ hi' ≤ hi * 2 ^ Z.of_nat k.
Proof.
  revert fuel lo hi. induction k as [|k IH]; intros fuel lo hi Hp Hk Hhi Hlo;
    (destruct fuel as [|fuel]; [lia|]); rewrite probe_up_pure_S.
  - simpl in Hp. rewrite Z.mul_1_r in Hp. rewrite Hp.
    exists lo, hi. split; [done|]. simpl. lia.
  - rewrite Nat2Z.inj_succ, Z.pow_succ_r in * by lia.
    destruct (p hi) eqn:Hphi.
    + destruct (IH fuel hi (hi * 2)) as (lo' & hi' & -> & ? & ?);
        [by rewrite <- Z.mul_assoc|lia|lia|lia|].
      exists lo', hi'. split; [done|]. lia.
    + exists lo, hi. split; [done|].
      assert (0 < 2 ^ Z.of_nat k) by (apply Z.pow_pos_nonneg; lia). nia.
Qed.

(** ... and it only stops there. *)
Lemma probe_up_stopped (fuel : nat) (lo hi : Z) (r : Z * Z) :
  (probe_up (pure_pred p) fuel lo hi tt).1 = Some r →
  ∃ k : nat, p (hi * 2 ^ Z.of_nat k) = false.
Proof.
  revert lo hi. induction fuel as [|fuel IH]; intros lo hi; [done|].
  rewrite probe_up_pure_S. destruct (p hi) eqn:Hphi.
  - intros [k Hk]%IH. exists (S k).
    by rewrite Nat2Z.inj_succ, Z.pow_succ_r, Z.mul_assoc by lia.
  - intros _. exists 0%nat. by rewrite Z.mul_1_r.
Qed.

(** [linear_scan] on the first four integers, when the predicate holds
    on all of them. *)
Lemma linear_scan_all_true :
  p 1 = true → p 2 = true → p 3 = true → p 4 = true →
  linear_scan (pure_pred p) [1; 2; 3; 4] tt = (None, tt).
Proof. intros H1 H2 H3 H4. simpl. unfold pure_pred. by rewrite H1, H2, H3, H4. Qed.
End Pure.

Section Below.
Variable n : Z.

Lemma probe_up_below (fuel : nat) (lo hi : Z) :
  0 < hi → lo < hi → lo ≤ n → n < hi * 2 ^ Z.of_nat fuel →
  ∃ lo' hi', probe_up (pure_pred (below n)) (S fuel) lo hi tt
               = (Some (lo', hi'), tt)
             ∧ lo' ≤ n < hi' ∧ (hi' - lo' ≤ hi - lo ∨ hi' - lo' ≤ n).
Proof.
  revert lo hi. induction fuel as [|fuel IH]; intros lo hi Hhi Hlt Hlo Hn;
    rewrite probe_up_pure_S; unfold below at 1.
  - simpl in Hn. destruct (Z.leb_spec hi n); [lia|].
    exists lo, hi. split; [done|lia].
  - rewrite Nat2Z.inj_succ, Z.pow_succ_r in Hn by lia.
    destruct (Z.leb_spec hi n).
    + destruct (IH hi (hi * 2)) as (lo' & hi' & -> & ? & ?); [lia..|].
      exists lo', hi'. split; [done|]. lia.
    + exists lo, hi. split; [done|lia].
Qed.

Lemma bisect_below (fuel : nat) (lo hi : Z) :
  lo ≤ n < hi → hi - lo ≤ 2 ^ Z.of_nat fuel →
  bisect (pure_pred (below n)) (S fuel) lo hi tt = (Some n, tt).
Proof.
  revert lo hi. induction fuel as [|fuel IH]; intros lo hi Hn Hgap;
    rewrite bisect_pure_S.
  - simpl in Hgap. destruct (Z.ltb_spec (lo + 1) hi); [lia|]. do 2 f_equal. lia.
  - rewrite Nat2Z.inj_succ, Z.pow_succ_r in Hgap by lia.
    destruct (Z.ltb_spec (lo + 1) hi) as [Hlt|Hge]; [|do 2 f_equal; lia].
    unfold below at 1.
    destruct (Z.leb_spec ((lo + hi) `div` 2) n);
      apply IH; Z.div_mod_to_equations; lia.
Qed.

Lemma find_integer_below_plain (fuel : nat) :
  0 ≤ n → n < 2 ^ Z.of_nat fuel →
  find_integer (pure_pred (below n)) (S fuel) tt = (Some n, tt).
Proof.
  intros Hn Hfuel. unfold find_integer.
  destruct (decide (n < 4)) as [Hsmall|Hbig].
  - simpl. unfold pure_pred, below.
    repeat (match goal with |- context [?a <=? n] =>
              destruct (Z.leb_spec a n) end;
            [|do 2 f_equal; lia]).
    lia.
  - rewrite linear_scan_all_true by (unfold below; lia).
    destruct (probe_up_below fuel 4 5) as (lo & hi & -> & ? & ?); [lia..|].
    apply bisect_below; [done|]. lia.
Qed.
End Below.

(** C1. For a natural number [n], [find_integer] on the predicate
    [i <= n] returns exactly [n] (given fuel logarithmic in [n] for its two
    loops), and the predicate is never called at 0. *)
Theorem find_integer_below (n : Z) (fuel : nat) :
  0 ≤ n → (Z.to_nat (Z.log2 n) + 2 ≤ fuel)%nat →
  (run_pure fuel (below n)).1 = Some n ∧ 0 ∉ (run_pure fuel (below n)).2.
Proof.
  intros Hn Hfuel.
  destruct (run_pure_spec (below n) fuel) as (ps & _ & Hpos & ->). simpl.
  split; [|intros H0%Hpos; lia].
  destruct fuel as [|fuel]; [lia|].
  rewrite find_integer_below_plain; [done|done|].
  assert (n < 2 ^ (Z.log2 n + 1)) as Hlog.
  { destruct (decide (n = 0)) as [->|]; [done|].
    pose proof (Z.log2_spec n). lia. }
  assert (2 ^ (Z.log2 n + 1) ≤ 2 ^ Z.of_nat fuel); [|lia].
  apply Z.pow_le_mono_r; [lia|]. pose proof (Z.log2_nonneg n). lia.
Qed.

(** The instance [n = 7] with fuel 10. *)
Lemma find_integer_below_witness :
  0 ≤ 7 ∧ (Z.to_nat (Z.log2 7) + 2 ≤ 10)%nat ∧
  (run_pure 10 (below 7)).1 = Some 7 ∧ 0 ∉ (run_pure 10 (below 7)).2.
Proof.
  split; [lia|]. split; [vm_compute; lia|].
  apply (find_integer_below 7 10); [lia|vm_compute; lia].
Defined.

Section Returns.
Variable p : Z → bool.

(** Where the search can stop: in the linear scan, at a false value among
    1..4, or in the exponential probe, at a false value among 5, 10, 20,
    40, ... *)
Lemma find_integer_returns_plain :
  (∃ fuel r, (find_integer (pure_pred p) fuel tt).1 = Some r)
  ↔ (∃ i, 1 ≤ i ≤ 4 ∧ p i = false) ∨ (∃ k : nat, p (5 * 2 ^ Z.of_nat k) = false).
Proof.
  destruct (p 1) eqn:H1; [destruct (p 2) eqn:H2; [destruct (p 3) eqn:H3;
    [destruct (p 4) eqn:H4|]|]|].
  - unfold find_integer. rewrite linear_scan_all_true by done. split.
    + intros (fuel & r & Hr). right.
      destruct (probe_up (pure_pred p) fuel 4 5 tt) as [[[lo hi]|] s2] eqn:Hup;
        [|done].
      apply (probe_up_stopped p fuel 4 5 (lo, hi)). by rewrite Hup.
    + intros [(i & Hi & Hpi)|[k Hk]].
      { assert (i = 1 ∨ i = 2 ∨ i = 3 ∨ i = 4) as Hcases by lia.
        destruct Hcases as [-> | [-> | [-> | ->]]]; congruence. }
      exists (S (k + 3)).
      destruct (probe_up_stops p k (S (k + 3)) 4 5 Hk) as (lo & hi & -> & Hlo & Hhi);
        [lia..|].
      apply bisect_returns.
      rewrite Nat2Z.inj_add, Z.pow_add_r by lia.
      assert (0 < 2 ^ Z.of_nat k) by (apply Z.pow_pos_nonneg; lia).
      change (2 ^ Z.of_nat 3) with 8. lia.
  - split; [intros _; left; exists 4; split; [lia|done]|].
    intros _. exists 0%nat, 3. unfold find_integer. simpl. unfold pure_pred.
    by rewrite H1, H2, H3, H4.
  - split; [intros _; left; exists 3; split; [lia|done]|].
    intros _. exists 0%nat, 2. unfold find_integer. simpl. unfold pure_pred.
    by rewrite H1, H2, H3.
  - split; [intros _; left; exists 2; split; [lia|done]|].
    intros _. exists 0%nat, 1. unfold find_integer. simpl. unfold pure_pred.
    by rewrite H1, H2.
  - split; [intros _; left; exists 1; split; [lia|done]|].
    intros _. exists 0%nat, 0. unfold find_integer. simpl. unfold pure_pred.
    by rewrite H1.
Qed.

Lemma run_pure_result (fuel : nat) :
  (run_pure fuel p).1 = (find_integer (pure_pred p) fuel tt).1.
Proof. by destruct (run_pure_spec p fuel) as (ps & _ & _ & ->). Qed.
End Returns.

(** C5, as found in the code.  On a predicate that is true everywhere the
    exponential probe never ends: no amount of fuel makes the call return. *)
Lemma find_integer_always_true_diverges :
  ¬ ∃ fuel r, (run_pure fuel (fun _ => true)).1 = Some r.
Proof.
  intros (fuel & r & Hr). rewrite run_pure_result in Hr.
  assert (∃ fuel r, (find_integer (pure_pred (fun _ => true)) fuel tt).1 = Some r)
    as Hret by eauto.
  apply find_integer_returns_plain in Hret as [(i & _ & Hi)|(k & Hk)]; done.
Qed.

(** C5, amended.  [find_integer] returns exactly on the predicates that are
    false at one of 1, 2, 3, 4 or at one of the probes 5 * 2^k; monotonicity
    plays no part in that. *)
Theorem find_integer_returns_iff (p : Z → bool) :
  (∃ fuel r, (run_pure fuel p).1 = Some r)
  ↔ (∃ i, 1 ≤ i ≤ 4 ∧ p i = false) ∨ (∃ k : nat, p (5 * 2 ^ Z.of_nat k) = false).
Proof.
  rewrite <- find_integer_returns_plain. split.
  - intros (fuel & r & Hr). exists fuel, r. by rewrite <- run_pure_result.
  - intros (fuel & r & Hr). exists fuel, r. by rewrite run_pure_result.
Qed.

(** C6. In one call of [find_integer], whatever the callback does and
    answers and however long the call is followed, no argument is passed to
    the callback twice: the log of the recorded call has no duplicates. *)
Theorem find_integer_probes_distinct {St : Type} (f : Z → St → bool * St)
    (fuel : nat) (s : St) :
  NoDup (find_integer (recording f) fuel (s, [])).2.2.
Proof.
  destruct (find_integer_recording f fuel s) as (ps & Hnd & _ & ->). done.
Qed.

End FindIntegerFacts.

(** * Properties of the [Shrinker] driver *)

Module ShrinkerFacts.
Import Shrinker.

Section Class.
Context {V : Type} `{Countable V}.
Context {W R U : Type}.
Local Abbreviation session := (shrinker V W R).

Variable make_immutable : V → V.
Variable left_is_better : V → V → bool.
Variable predicate : V → W → bool * W.

Local Abbreviation incorporate := (incorporate make_immutable left_is_better predicate).
Local Abbreviation consider := (consider make_immutable left_is_better predicate).
Local Abbreviation exec := (exec make_immutable left_is_better predicate).
Local Abbreviation init := (init (W:=W) (R:=R) make_immutable).
Local Abbreviation incorporate_path := (incorporate_path left_is_better predicate).

Lemma incorporate_paths (value : V) (s : session) :
  incorporate_path (make_immutable value) s
    (incorporate value s).1 (incorporate value s).2.
Proof.
  unfold Shrinker.incorporate, commit, set_world, mark_seen, log.
  set (v := make_immutable value). simpl.
  destruct (left_is_better v (current s)) eqn:Hb; simpl.
  - destruct (bool_decide_reflect (v ∈ seen s)) as [Hseen|Hnew]; simpl.
    + rewrite <- app_assoc. by apply path_seen.
    + destruct (predicate v (world s)) as [[] w] eqn:Hp; simpl;
        rewrite <- !app_assoc; simpl.
      * by apply path_accepted.
      * by apply path_rejected.
  - rewrite <- app_assoc. by apply path_not_better.
Qed.

(** C2. [incorporate(value)] returns acceptance exactly when the
    canonical value is better than [current], has not been seen and
    satisfies the predicate; then it is the new [current] and [changes]
    has grown by one.  Otherwise the answer is rejection, and [current]
    and [changes] are as before. *)
Theorem incorporate_spec (value : V) (s : session) :
  let v := make_immutable value in
  let r := incorporate value s in
  (r.1 = true ↔ left_is_better v (current s) = true ∧ (v ∉ seen s)
                ∧ (predicate v (world s)).1 = true)
  ∧ (r.1 = true → current r.2 = v ∧ changes r.2 = changes s + 1)
  ∧ (r.1 = false → current r.2 = current s ∧ changes r.2 = changes s).
Proof.
  intros v r. subst r.
  destruct (incorporate_paths value s) as [Hb|Hb Hs|w Hb Hs Hp|w Hb Hs Hp];
    fold v in Hb |- *; simpl.
  - split; [|done]. split; [done|]. intros (? & _). congruence.
  - split; [|done]. split; [done|]. intros (_ & ? & _). done.
  - split; [|done]. split; [done|]. fold v in Hp. rewrite Hp. by intros (_ & _ & ?).
  - split; [|done]. fold v in Hp. by rewrite Hp.
Qed.

(** C8. [consider] on a value whose canonical form is [current] answers
    acceptance and leaves the whole session as it was, call log included
    (so neither the predicate nor [check_invariants] nor [left_is_better]
    was called); on any other value it is [incorporate], given that
    canonicalising is idempotent. *)
Theorem consider_spec (value : V) (s : session) :
  (∀ x, make_immutable (make_immutable x) = make_immutable x) →
  (make_immutable value = current s → consider value s = (true, s))
  ∧ (make_immutable value ≠ current s → consider value s = incorporate value s).
Proof.
  intros Hidem. unfold Shrinker.consider. split; intros Hv.
  - by rewrite bool_decide_eq_true_2.
  - rewrite bool_decide_eq_false_2 by done.
    unfold Shrinker.incorporate. by rewrite Hidem.
Qed.

(** *** What every step of a session preserves *)

Variable short_circuit : U → prog V (bool * U).
Variable preamble : U → prog V U.
Variable run_step : U → prog V U.

Local Abbreviation do_short_circuit :=
  (do_short_circuit make_immutable left_is_better predicate short_circuit).
Local Abbreviation do_preamble :=
  (do_preamble make_immutable left_is_better predicate preamble).
Local Abbreviation do_run_step :=
  (do_run_step make_immutable left_is_better predicate run_step).
Local Abbreviation run_loop :=
  (run_loop make_immutable left_is_better predicate run_step).
Local Abbreviation prev_at :=
  (prev_at make_immutable left_is_better predicate run_step).
Local Abbreviation run :=
  (run make_immutable left_is_better predicate short_circuit preamble run_step).
Local Abbreviation shrink :=
  (shrink make_immutable left_is_better predicate short_circuit preamble run_step).

Section Evolves.
(** A preorder on sessions that each path through [incorporate]
    respects is respected by everything a session does. *)
Variable Rel : session → session → Prop.
Hypothesis Rel_refl : ∀ s, Rel s s.
Hypothesis Rel_trans : ∀ s1 s2 s3, Rel s1 s2 → Rel s2 s3 → Rel s1 s3.
Hypothesis Rel_incorporate :
  ∀ v s b s', incorporate_path v s b s' → Rel s s'.
Hypothesis Rel_log : ∀ c s, is_method_call c = true → Rel s (log c s).

Lemma evolves_incorporate (value : V) (s : session) :
  Rel s (incorporate value s).2.
Proof. eapply Rel_incorporate, incorporate_paths. Qed.

Lemma evolves_consider (value : V) (s : session) :
  Rel s (consider value s).2.
Proof.
  unfold Shrinker.consider. case_bool_decide; [apply Rel_refl|].
  apply evolves_incorporate.
Qed.

Lemma evolves_exec {A : Type} (p : prog V A) (s : session) :
  Rel s (exec p s).2.
Proof.
  revert s. induction p as [a|k IH|k IH|value k IH|value k IH]; intros s; simpl.
  - apply Rel_refl.
  - apply IH.
  - apply IH.
  - pose proof (evolves_consider value s) as Hc.
    destruct (Shrinker.consider _ _ _ value s) as [b s'].
    eapply Rel_trans; [exact Hc|apply IH].
  - pose proof (evolves_incorporate value s) as Hc.
    destruct (Shrinker.incorporate _ _ _ value s) as [b s'].
    eapply Rel_trans; [exact Hc|apply IH].
Qed.

Lemma evolves_short_circuit (su : session * U) :
  Rel su.1 (do_short_circuit su).2.1.
Proof.
  unfold Shrinker.do_short_circuit.
  pose proof (evolves_exec (short_circuit su.2) (log ShortCircuit su.1)) as He.
  destruct (Shrinker.exec _ _ _ _ _) as [[b u'] s'].
  apply (Rel_trans _ (log ShortCircuit su.1)); [by apply Rel_log|exact He].
Qed.

Lemma evolves_preamble (su : session * U) : Rel su.1 (do_preamble su).1.
Proof.
  unfold Shrinker.do_preamble.
  pose proof (evolves_exec (preamble su.2) (log Preamble su.1)) as He.
  destruct (Shrinker.exec _ _ _ _ _) as [u' s'].
  apply (Rel_trans _ (log Preamble su.1)); [by apply Rel_log|exact He].
Qed.

Lemma evolves_run_step (su : session * U) : Rel su.1 (do_run_step su).1.
Proof.
  unfold Shrinker.do_run_step.
  pose proof (evolves_exec (run_step su.2) (log RunStep su.1)) as He.
  destruct (Shrinker.exec _ _ _ _ _) as [u' s'].
  apply (Rel_trans _ (log RunStep su.1)); [by apply Rel_log|exact He].
Qed.

Lemma evolves_passes (k : nat) (su : session * U) :
  Rel su.1 (Nat.iter k do_run_step su).1.
Proof.
  induction k as [|k IH]; simpl; [apply Rel_refl|].
  eapply Rel_trans; [exact IH|apply evolves_run_step].
Qed.

Lemma evolves_run_loop (fuel : nat) (prev : Z) (su : session * U) :
  Rel su.1 (run_loop fuel prev su).2.1.
Proof.
  revert prev su. induction fuel as [|fuel IH]; intros prev su; simpl.
  - apply Rel_refl.
  - destruct (negb (changes su.1 =? prev)); simpl; [|apply Rel_refl].
    eapply Rel_trans; [apply evolves_run_step|apply IH].
Qed.

Lemma evolves_run (fuel : nat) (su : session * U) :
  Rel su.1 (run fuel su).2.1.
Proof.
  unfold Shrinker.run. pose proof (evolves_short_circuit su) as Hsc.
  destruct (Shrinker.do_short_circuit _ _ _ _ su) as [b su1].
  destruct b; [exact Hsc|].
  pose proof (evolves_preamble su1) as Hpre.
  assert (Rel su.1 (do_preamble su1).1) as Hsu2 by (eapply Rel_trans; eauto).
  destruct (full (do_preamble su1).1).
  - eapply Rel_trans; [exact Hsu2|apply evolves_run_loop].
  - eapply Rel_trans; [exact Hsu2|apply evolves_run_step].
Qed.
End Evolves.

(** *** [changes] and [current] along a session *)

Lemma path_changes (v : V) (s : session) (b : bool) (s' : session) :
  incorporate_path v s b s' → changes s ≤ changes s'.
Proof. destruct 1; simpl; lia. Qed.

Lemma path_better (v : V) (s : session) (b : bool) (s' : session) :
  incorporate_path v s b s' →
  current s' = current s ∨ left_is_better (current s') (current s) = true.
Proof. destruct 1; simpl; auto. Qed.

Lemma path_full (v : V) (s : session) (b : bool) (s' : session) :
  incorporate_path v s b s' → full s' = full s.
Proof. by destruct 1. Qed.

Lemma run_changes (fuel : nat) (su : session * U) :
  changes su.1 ≤ changes (run fuel su).2.1.
Proof.
  apply (evolves_run (fun s s' => changes s ≤ changes s')).
  - intros s. lia.
  - intros s1 s2 s3. lia.
  - apply path_changes.
  - intros c s _. simpl. lia.
Qed.

Section Transitive.
Hypothesis better_trans : ∀ a b c,
  left_is_better a b = true → left_is_better b c = true →
  left_is_better a c = true.

Lemma run_better (fuel : nat) (su : session * U) :
  current (run fuel su).2.1 = current su.1
  ∨ left_is_better (current (run fuel su).2.1) (current su.1) = true.
Proof.
  apply (evolves_run (fun s s' =>
    current s' = current s ∨ left_is_better (current s') (current s) = true)).
  - intros s. by left.
  - intros s1 s2 s3 [->|H12] [->|H23]; eauto.
  - apply path_better.
  - intros c s _. by left.
Qed.
End Transitive.

(** C4. [changes] never decreases over a call of [incorporate] or
    [consider], which replace [current] only by a value that is better
    than it; so, [left_is_better] being transitive, a session that starts
    from [__init__] and goes through [run] (or part of it) has a
    non-negative [changes] and a [current] that is the canonical seed or
    better than it. *)
Theorem session_monotone :
  (∀ a b c, left_is_better a b = true → left_is_better b c = true →
            left_is_better a c = true) →
  (∀ (value : V) (s : session),
     let si := (incorporate value s).2 in
     let sc := (consider value s).2 in
     changes s ≤ changes si ∧ changes s ≤ changes sc
     ∧ (current si = current s ∨ left_is_better (current si) (current s) = true)
     ∧ (current sc = current s ∨ left_is_better (current sc) (current s) = true))
  ∧ (∀ fuel initial w rnd fl u0,
       let s' := (run fuel (init initial w rnd fl, u0)).2.1 in
       0 ≤ changes s'
       ∧ (current s' = make_immutable initial
          ∨ left_is_better (current s') (make_immutable initial) = true)).
Proof.
  intros Htrans. split.
  - intros value s. simpl.
    pose proof (incorporate_paths value s) as Hi.
    assert (incorporate_path (make_immutable (make_immutable value)) s
              (incorporate (make_immutable value) s).1
              (incorporate (make_immutable value) s).2) as Hc
      by apply incorporate_paths.
    split; [by eapply path_changes|].
    unfold Shrinker.consider. case_bool_decide; simpl.
    + split; [lia|]. split; [by eapply path_better|by left].
    + split; [by eapply path_changes|]. split; by eapply path_better.
  - intros fuel initial w rnd fl u0. simpl. split.
    + apply (run_changes fuel (init initial w rnd fl, u0)).
    + apply (run_better Htrans fuel (init initial w rnd fl, u0)).
Qed.

(** *** The predicate and the seen-set *)

Lemma path_tested_once (v : V) (s : session) (b : bool) (s' : session) :
  incorporate_path v s b s' → tested_once s → tested_once s'.
Proof.
  unfold tested_once, predicate_calls.
  destruct 1 as [Hb|Hb Hs|w Hb Hs Hp|w Hb Hs Hp]; simpl;
    rewrite omap_app; simpl; rewrite ?app_nil_r; try done.
  all: intros [Hnd Hsub]; split.
  all: try (apply NoDup_app; split; [done|]; split; [|apply NoDup_singleton];
            intros x Hx ->%list_elem_of_singleton; by apply Hs, Hsub).
  all: intros x [Hx| ->%list_elem_of_singleton]%elem_of_app;
    [apply elem_of_union_r; by apply Hsub|apply elem_of_union_l; set_solver].
Qed.

Lemma log_tested_once (c : call V) (s : session) :
  is_method_call c = true → tested_once s → tested_once (log c s).
Proof.
  unfold tested_once, predicate_calls. simpl. rewrite omap_app.
  destruct c; try done; simpl; by rewrite app_nil_r.
Qed.

Lemma init_tested_once (initial : V) (w : W) (rnd : R) (fl : bool) :
  tested_once (init initial w rnd fl).
Proof.
  split; simpl; [apply NoDup_nil_2|]. intros v Hv. by apply not_elem_of_nil in Hv.
Qed.

(** C7. In a session that starts from [__init__], the predicate is
    called at most once on each canonical value: after [run] (or any
    part of it), and after any subclass method made of [consider] and
    [incorporate] calls, the predicate calls of the log are pairwise
    distinct. *)
Theorem predicate_called_once (initial : V) (w : W) (rnd : R) (fl : bool) :
  (∀ fuel u0,
     NoDup (predicate_calls (calls (run fuel (init initial w rnd fl, u0)).2.1)))
  ∧ (∀ (A : Type) (p : prog V A),
       NoDup (predicate_calls (calls (exec p (init initial w rnd fl)).2))).
Proof.
  split.
  - intros fuel u0.
    apply (evolves_run (fun s s' => tested_once s → tested_once s')
             (fun s Hs => Hs) (fun s1 s2 s3 H12 H23 Hs => H23 (H12 Hs))
             path_tested_once log_tested_once fuel (init initial w rnd fl, u0)).
    apply init_tested_once.
  - intros A p.
    apply (evolves_exec (fun s s' => tested_once s → tested_once s')
             (fun s Hs => Hs) (fun s1 s2 s3 H12 H23 Hs => H23 (H12 Hs))
             path_tested_once p (init initial w rnd fl)).
    apply init_tested_once.
Qed.

(** *** A predicate that accepts nothing *)

Section NeverAccepting.
Hypothesis never : ∀ v w, (predicate v w).1 = false.

Lemma path_never (v : V) (s : session) (b : bool) (s' : session) :
  incorporate_path v s b s' →
  current s' = current s ∧ changes s' = changes s.
Proof.
  destruct 1 as [Hb|Hb Hs|w Hb Hs Hp|w Hb Hs Hp]; simpl; try done.
  specialize (never v (world s)). rewrite Hp in never. done.
Qed.

Lemma run_never (fuel : nat) (su : session * U) :
  (2 ≤ fuel)%nat →
  (run fuel su).1 = Some tt
  ∧ current (run fuel su).2.1 = current su.1
  ∧ changes (run fuel su).2.1 = changes su.1.
Proof.
  intros Hfuel.
  assert (∀ s : session, current s = current s ∧ changes s = changes s)
    as Hrefl by done.
  assert (∀ s1 s2 s3 : session,
            current s2 = current s1 ∧ changes s2 = changes s1 →
            current s3 = current s2 ∧ changes s3 = changes s2 →
            current s3 = current s1 ∧ changes s3 = changes s1)
    as Htrans by (intros s1 s2 s3 [-> ->] [-> ->]; done).
  assert (∀ (c : call V) (s : session), is_method_call c = true →
            current (log c s) = current s ∧ changes (log c s) = changes s)
    as Hlog by done.
  split; [|apply (evolves_run
             (fun s s' => current s' = current s ∧ changes s' = changes s)
             Hrefl Htrans path_never Hlog fuel su)].
  unfold Shrinker.run.
  destruct (Shrinker.do_short_circuit _ _ _ _ su) as [[] su1]; [done|].
  destruct (full (do_preamble su1).1); [|done].
  destruct fuel as [|[|fuel]]; [lia|lia|]. simpl.
  destruct (Z.eqb_spec (changes (do_preamble su1).1) (-1)) as [Hneg|_]; [done|].
  simpl.
  destruct (evolves_run_step
              (fun s s' => current s' = current s ∧ changes s' = changes s)
              Hrefl Htrans path_never Hlog (do_preamble su1)) as [_ ->].
  by rewrite Z.eqb_refl.
Qed.
End NeverAccepting.

(** C10. When the predicate is false on every value, no sequence of
    [consider] and [incorporate] calls moves [current] away from the
    canonical seed or [changes] away from 0, and [shrink] returns the
    canonical seed. *)
Theorem shrink_never_accepting
    (initial : V) (w : W) (rnd : R) (fl : bool) (u0 : U) :
  (∀ v w', (predicate v w').1 = false) →
  (∀ (A : Type) (p : prog V A),
     let s' := (exec p (init initial w rnd fl)).2 in
     current s' = make_immutable initial ∧ changes s' = 0)
  ∧ (∀ fuel, (2 ≤ fuel)%nat →
       shrink fuel initial w rnd fl u0 = Some (make_immutable initial)).
Proof.
  intros Hnever. split.
  - intros A p.
    apply (evolves_exec
             (fun s s' => current s' = current s ∧ changes s' = changes s)).
    + done.
    + by intros s1 s2 s3 [-> ->] [-> ->].
    + by apply path_never.
  - intros fuel Hfuel. unfold Shrinker.shrink.
    destruct (run_never Hnever fuel (init initial w rnd fl, u0) Hfuel)
      as (Hret & Hcur & _).
    destruct (Shrinker.run _ _ _ _ _ _ fuel _) as [[[]|] [s u]]; simpl in *;
      congruence.
Qed.

(** *** The control flow of [run] *)

Lemma path_method_calls (v : V) (s : session) (b : bool) (s' : session) :
  incorporate_path v s b s' →
  method_calls (calls s') = method_calls (calls s).
Proof.
  unfold method_calls. destruct 1; simpl; rewrite filter_app;
    by rewrite <- app_nil_r.
Qed.

Lemma exec_method_calls {A : Type} (p : prog V A) (s : session) :
  method_calls (calls (exec p s).2) = method_calls (calls s).
Proof.
  apply (evolves_exec
           (fun s s' => method_calls (calls s') = method_calls (calls s))).
  - done.
  - by intros s1 s2 s3 -> ->.
  - apply path_method_calls.
Qed.

Lemma short_circuit_method_calls (su : session * U) :
  method_calls (calls (do_short_circuit su).2.1)
  = method_calls (calls su.1) ++ [ShortCircuit].
Proof.
  unfold Shrinker.do_short_circuit.
  pose proof (exec_method_calls (short_circuit su.2) (log ShortCircuit su.1)) as He.
  destruct (Shrinker.exec _ _ _ _ _) as [[b u'] s']. simpl in *.
  rewrite He. unfold method_calls. by rewrite filter_app.
Qed.

Lemma preamble_method_calls (su : session * U) :
  method_calls (calls (do_preamble su).1)
  = method_calls (calls su.1) ++ [Preamble].
Proof.
  unfold Shrinker.do_preamble.
  pose proof (exec_method_calls (preamble su.2) (log Preamble su.1)) as He.
  destruct (Shrinker.exec _ _ _ _ _) as [u' s']. simpl in *.
  rewrite He. unfold method_calls. by rewrite filter_app.
Qed.

Lemma run_step_method_calls (su : session * U) :
  method_calls (calls (do_run_step su).1)
  = method_calls (calls su.1) ++ [RunStep].
Proof.
  unfold Shrinker.do_run_step.
  pose proof (exec_method_calls (run_step su.2) (log RunStep su.1)) as He.
  destruct (Shrinker.exec _ _ _ _ _) as [u' s']. simpl in *.
  rewrite He. unfold method_calls. by rewrite filter_app.
Qed.

Lemma passes_method_calls (k : nat) (su : session * U) :
  method_calls (calls (Nat.iter k do_run_step su).1)
  = method_calls (calls su.1) ++ replicate k RunStep.
Proof.
  induction k as [|k IH]; simpl; [by rewrite app_nil_r|].
  rewrite run_step_method_calls, IH, <- app_assoc. f_equal.
  clear IH. induction k as [|k IH]; [done|]. simpl. by rewrite IH.
Qed.

Lemma prev_at_shift (prev : Z) (su : session * U) (j : nat) :
  prev_at (changes su.1) (do_run_step su) j = prev_at prev su (S j).
Proof.
  unfold Shrinker.prev_at. destruct j as [|j]; [done|].
  by rewrite Nat.iter_succ_r.
Qed.

(** The full-mode loop returns after [k] passes exactly when the test
    before pass [k + 1] is the first to find [changes] equal to [prev]. *)
Lemma run_loop_returns (fuel : nat) (prev : Z) (su su' : session * U) :
  run_loop fuel prev su = (Some tt, su')
  ↔ ∃ k, (k < fuel)%nat ∧ su' = Nat.iter k do_run_step su
         ∧ changes (Nat.iter k do_run_step su).1 = prev_at prev su k
         ∧ ∀ j, (j < k)%nat →
                changes (Nat.iter j do_run_step su).1 ≠ prev_at prev su j.
Proof.
  revert prev su. induction fuel as [|fuel IH]; intros prev su; simpl.
  - split; [done|]. intros (k & Hk & _). lia.
  - destruct (Z.eqb_spec (changes su.1) prev) as [Heq|Hne]; simpl.
    + split.
      * intros [= <-]. exists 0%nat. split; [lia|]. split; [done|].
        split; [done|]. intros j Hj. lia.
      * intros (k & _ & -> & _ & Hfirst). destruct k as [|k]; [done|].
        by destruct (Hfirst 0%nat ltac:(lia)).
    + rewrite IH. split.
      * intros (k & Hk & Hsu' & Hstop & Hfirst). exists (S k).
        rewrite Nat.iter_succ_r, <- (prev_at_shift prev).
        split; [lia|]. split; [done|]. split; [done|].
        intros [|j] Hj; [done|].
        rewrite Nat.iter_succ_r, <- (prev_at_shift prev). apply Hfirst. lia.
      * intros (k & Hk & Hsu' & Hstop & Hfirst).
        destruct k as [|k]; [done|]. exists k.
        rewrite Nat.iter_succ_r, <- (prev_at_shift prev) in Hstop.
        rewrite Nat.iter_succ_r in Hsu'.
        split; [lia|]. split; [done|]. split; [done|].
        intros j Hj. specialize (Hfirst (S j) ltac:(lia)).
        by rewrite Nat.iter_succ_r, <- (prev_at_shift prev) in Hfirst.
Qed.

Lemma run_full (fuel : nat) (su : session * U) :
  full (run fuel su).2.1 = full su.1.
Proof.
  apply (evolves_run (fun s s' => full s' = full s)).
  - done.
  - by intros s1 s2 s3 -> ->.
  - apply path_full.
  - done.
Qed.

Lemma before_passes (su : session * U) :
  changes su.1 ≤ changes (do_preamble (do_short_circuit su).2).1
  ∧ full (do_preamble (do_short_circuit su).2).1 = full su.1.
Proof.
  split.
  - etrans.
    + apply (evolves_short_circuit (fun s s' => changes s ≤ changes s'));
        [intros; lia|intros ???; lia|apply path_changes|intros; simpl; lia].
    + apply (evolves_preamble (fun s s' => changes s ≤ changes s'));
        [intros; lia|intros ???; lia|apply path_changes|intros; simpl; lia].
  - etrans.
    + apply (evolves_preamble (fun s s' => full s' = full s));
        [done|by intros ??? -> ->|apply path_full|done].
    + apply (evolves_short_circuit (fun s s' => full s' = full s));
        [done|by intros ??? -> ->|apply path_full|done].
Qed.

(** C3. [run] on a session whose [changes] is not negative (as after
    [__init__]).  When [short_circuit] answers true, [run] returns at
    once: the session is as [short_circuit] left it and no other method
    was called.  Otherwise [preamble] is called once and then, without
    [full], [run_step] once; with [full], [run] returns after [k >= 1]
    calls of [run_step] exactly when the [k]-th is the first that left
    [changes] as it found it. *)
Theorem run_spec (fuel : nat) (su : session * U) :
  0 ≤ changes su.1 →
  let b := (do_short_circuit su).1 in
  let su1 := (do_short_circuit su).2 in
  let pass := fun k : nat => Nat.iter k do_run_step (do_preamble su1) in
  let old := method_calls (calls su.1) in
  if b then
    run fuel su = (Some tt, su1)
    ∧ method_calls (calls su1.1) = old ++ [ShortCircuit]
  else if full su.1 then
    (∀ su', run fuel su = (Some tt, su')
       ↔ ∃ k, (1 ≤ k < fuel)%nat ∧ su' = pass k
              ∧ changes (pass k).1 = changes (pass (k - 1)%nat).1
              ∧ ∀ j, (1 ≤ j < k)%nat →
                     changes (pass j).1 ≠ changes (pass (j - 1)%nat).1)
    ∧ (∀ k, method_calls (calls (pass k).1)
            = old ++ [ShortCircuit; Preamble] ++ replicate k RunStep)
  else
    run fuel su = (Some tt, pass 1%nat)
    ∧ method_calls (calls (pass 1%nat).1)
      = old ++ [ShortCircuit; Preamble; RunStep].
Proof.
  intros Hchanges. simpl.
  destruct (before_passes su) as [Hc2 Hfull].
  pose proof (short_circuit_method_calls su) as Hm1.
  pose proof (preamble_method_calls (do_short_circuit su).2) as Hm2.
  rewrite Hm1 in Hm2. unfold Shrinker.run.
  destruct (do_short_circuit su) as [b su1]. simpl in *.
  destruct b; [done|]. rewrite Hfull.
  assert (∀ k, method_calls (calls (Nat.iter k do_run_step (do_preamble su1)).1)
               = method_calls (calls su.1)
                 ++ [ShortCircuit; Preamble] ++ replicate k RunStep) as Hm.
  { intros k. rewrite passes_method_calls, Hm2, <- !app_assoc. done. }
  destruct (full su.1); [|split; [done|apply (Hm 1%nat)]].
  split; [|exact Hm]. intros su'. rewrite run_loop_returns. split.
  - intros (k & Hk & -> & Hstop & Hfirst).
    destruct k as [|k]; [simpl in Hstop; lia|]. exists (S k).
    split; [lia|]. split; [done|]. rewrite Nat.sub_succ, Nat.sub_0_r.
    split; [exact Hstop|].
    intros j Hj. specialize (Hfirst j ltac:(lia)).
    destruct j as [|j]; [lia|]. by rewrite Nat.sub_succ, Nat.sub_0_r.
  - intros (k & Hk & -> & Hstop & Hfirst). exists k.
    split; [lia|]. split; [done|].
    destruct k as [|k]; [lia|]. rewrite Nat.sub_succ, Nat.sub_0_r in Hstop.
    split; [exact Hstop|].
    intros [|j] Hj; [simpl; lia|].
    specialize (Hfirst (S j) ltac:(lia)).
    by rewrite Nat.sub_succ, Nat.sub_0_r in Hfirst.
Qed.
End Class.

(** *** The theorems on the countdown subclass *)

Section Instances.
Import Countdown.

Lemma countdown_trans (a b c : Z) :
  left_is_better a b = true → left_is_better b c = true →
  left_is_better a c = true.
Proof. unfold left_is_better. lia. Defined.

(** One pass from 12: [short_circuit] fails on 0, then [preamble] and
    one [run_step]. *)
Lemma run_spec_witness :
  0 ≤ changes (start 12 false).1
  ∧ (Countdown.run (at_least 10) 0 (start 12 false)).1 = Some tt
  ∧ method_calls (calls (Countdown.run (at_least 10) 0 (start 12 false)).2.1)
    = [ShortCircuit; Preamble; RunStep].
Proof.
  assert (0 ≤ changes (start 12 false).1) as Hchanges by done.
  split; [exact Hchanges|].
  pose proof (run_spec id left_is_better (at_least 10)
                short_circuit preamble run_step 0 (start 12 false) Hchanges)
    as Hspec.
  cbv zeta in Hspec.
  assert ((do_short_circuit id left_is_better (at_least 10) short_circuit
             (start 12 false)).1 = false) as Hb by (vm_compute; reflexivity).
  rewrite Hb in Hspec. simpl in Hspec. destruct Hspec as [Hrun Hcalls].
  unfold Countdown.run. rewrite Hrun. split; [done|exact Hcalls].
Defined.

(** The full countdown from 12 under the threshold 10. *)
Lemma session_monotone_witness :
  (∀ a b c, left_is_better a b = true → left_is_better b c = true →
            left_is_better a c = true)
  ∧ (let s' := (Countdown.run (at_least 10) 5 (start 12 true)).2.1 in
     0 ≤ changes s'
     ∧ (current s' = 12 ∨ left_is_better (current s') 12 = true)).
Proof.
  split; [exact countdown_trans|].
  destruct (session_monotone (R:=unit) id left_is_better (at_least 10)
              short_circuit preamble run_step countdown_trans) as [_ Hrun].
  exact (Hrun 5%nat 12 tt tt true tt).
Defined.

(** [consider] on the current value 12, and on 11. *)
Lemma consider_spec_witness :
  (∀ x : Z, id (id x) = id x)
  ∧ consider id left_is_better (at_least 10) 12 (start 12 true).1
    = (true, (start 12 true).1)
  ∧ consider id left_is_better (at_least 10) 11 (start 12 true).1
    = incorporate id left_is_better (at_least 10) 11 (start 12 true).1.
Proof.
  assert (∀ x : Z, id (id x) = id x) as Hidem by reflexivity.
  split; [exact Hidem|]. split.
  - apply (consider_spec id left_is_better (at_least 10) 12 _ Hidem).
    reflexivity.
  - apply (consider_spec id left_is_better (at_least 10) 11 _ Hidem).
    vm_compute. discriminate.
Defined.

(** The countdown from 12 when nothing is accepted. *)
Lemma shrink_never_accepting_witness :
  (∀ (v : Z) (w : unit), (never v w).1 = false)
  ∧ Countdown.shrink never 2 12 true = Some 12.
Proof.
  assert (∀ (v : Z) (w : unit), (never v w).1 = false) as Hnever by reflexivity.
  split; [exact Hnever|].
  apply (shrink_never_accepting id left_is_better never
           short_circuit preamble run_step 12 tt tt true tt Hnever).
  lia.
Defined.
End Instances.

End ShrinkerFacts.

(** * The driver at work *)

Module CountdownFacts.
Import Shrinker Countdown.

Example shrink_full : shrink (at_least 10) 5 12 true = Some 10.
Proof. vm_compute. reflexivity. Qed.

Example shrink_one_pass : shrink (at_least 10) 0 12 false = Some 11.
Proof. vm_compute. reflexivity. Qed.

Example shrink_out_of_fuel : shrink (at_least 10) 3 12 true = None.
Proof. vm_compute. reflexivity. Qed.

Example shrink_short_circuit : shrink (at_least 0) 0 12 true = Some 0.
Proof. vm_compute. reflexivity. Qed.

Example run_calls :
  calls (run (at_least 12) 5 (start 13 true)).2.1
  = [ShortCircuit; CheckInvariants 0; LeftIsBetter 0 13; Predicate 0;
     Preamble;
     RunStep; CheckInvariants 12; LeftIsBetter 12 13; Predicate 12;
     RunStep; CheckInvariants 11; LeftIsBetter 11 12; Predicate 11].
Proof. vm_compute. reflexivity. Qed.

End CountdownFacts.

(** * The conjecture engine on [test_lot_of_dead_nodes] *)

Module DeadNodesFacts.
Import Engine DeadNodes.

(** *** The path to [target] and the terminal buffers *)

Lemma take_target_S (i : nat) :
  (i < 5)%nat → take (S i) target = take i target ++ [Z.of_nat i].
Proof. do 5 (destruct i as [|i]; [reflexivity|]). lia. Qed.

Lemma drop_target (i : nat) :
  (i < 5)%nat → drop i target = Z.of_nat i :: drop (S i) target.
Proof. do 5 (destruct i as [|i]; [reflexivity|]). lia. Qed.

Lemma take_target_all (i : nat) : (5 ≤ i)%nat → take i target = target.
Proof. intros Hi. by apply take_ge. Qed.

Lemma length_take_target (i : nat) :
  (i ≤ 5)%nat → length (take i target) = i.
Proof. intros Hi. rewrite length_take. simpl. lia. Qed.

Lemma prefix_is_take {A : Type} (p l : list A) :
  p `prefix_of` l → p = take (length p) l.
Proof. intros [k ->]. by rewrite take_app_length. Qed.

Lemma target_is_terminal : is_terminal target.
Proof. by left. Qed.

Lemma terminal_snoc (i : nat) (b : Z) :
  (i < 5)%nat → 0 ≤ b < 256 → b ≠ Z.of_nat i ∨ i = 4%nat →
  is_terminal (take i target ++ [b]).
Proof.
  intros Hi Hb Hne. destruct (decide (b = Z.of_nat i)) as [->|Hbi].
  - destruct Hne as [?| ->]; [done|]. by left.
  - right. by exists i, b.
Qed.

(** No node on the way to [target] ends an execution. *)
Lemma terminal_take (k : nat) : is_terminal (take k target) → (5 ≤ k)%nat.
Proof.
  intros [Heq|(i & b & Hi & Hb & Hne & Heq)].
  - apply (f_equal length) in Heq. rewrite length_take in Heq. simpl in Heq. lia.
  - destruct (decide (k = S i)) as [->|Hk].
    + rewrite take_target_S in Heq by done.
      apply app_inv_head in Heq. congruence.
    + apply (f_equal length) in Heq.
      rewrite length_app, !length_take in Heq. simpl in Heq. lia.
Qed.

Lemma terminal_prefix_target (t : list Z) :
  is_terminal t → t `prefix_of` target → t = target.
Proof.
  intros Ht Hpre. rewrite (prefix_is_take _ _ Hpre) in Ht |- *.
  apply terminal_take in Ht. by apply take_target_all.
Qed.

Lemma terminal_length (t : list Z) : is_terminal t → (1 ≤ length t ≤ 5)%nat.
Proof.
  intros [->|(i & b & Hi & _ & _ & ->)]; [simpl; lia|].
  rewrite length_app, length_take. simpl. lia.
Qed.

(** A proper prefix of a terminal buffer is on the way to [target]. *)
Lemma terminal_proper_prefix (t p : list Z) :
  is_terminal t → p `prefix_of` t → p ≠ t →
  p = take (length p) target ∧ (length p < 5)%nat.
Proof.
  intros Ht Hpre Hne.
  assert (length p < length t)%nat as Hlen.
  { pose proof (prefix_length _ _ Hpre).
    destruct (decide (length p = length t)) as [Heq|]; [|lia].
    destruct Hne. by apply prefix_length_eq; [|lia]. }
  destruct Ht as [->|(i & b & Hi & _ & _ & ->)].
  - split; [by apply prefix_is_take|done].
  - rewrite length_app, length_take in Hlen. simpl in Hlen.
    destruct Hpre as [k Hk].
    assert (p `prefix_of` take i target) as Hpi.
    { destruct (decide (k = [])) as [->|Hknil].
      - rewrite app_nil_r in Hk. apply (f_equal length) in Hk.
        rewrite length_app, length_take in Hk. simpl in Hk. lia.
      - destruct (exists_last Hknil) as (k' & x & ->).
        rewrite app_assoc in Hk. apply app_inj_tail in Hk as [-> _].
        by exists k'. }
    assert (p `prefix_of` target) as Hpt
      by (etrans; [exact Hpi|apply prefix_take]).
    split; [by apply prefix_is_take|lia].
Qed.

Lemma snoc_proper_prefix (t : list Z) (i : nat) (c : Z) :
  is_terminal t → take i target ++ [c] `prefix_of` t →
  take i target ++ [c] ≠ t → (i < 5)%nat →
  c = Z.of_nat i ∧ (S i < 5)%nat.
Proof.
  intros Ht Hpre Hne Hi.
  destruct (terminal_proper_prefix t _ Ht Hpre Hne) as [Heq Hlen].
  rewrite length_app, length_take_target in Heq, Hlen by lia. simpl in *.
  replace (i + 1)%nat with (S i) in * by lia.
  rewrite take_target_S in Heq by done.
  apply app_inv_head in Heq. split; [congruence|done].
Qed.

(** Every terminal buffer is in the list. *)
Lemma elem_of_all_terminals (t : list Z) : is_terminal t → t ∈ all_terminals.
Proof.
  unfold all_terminals. intros [->|(i & b & Hi & Hb & Hne & ->)].
  - apply list_elem_of_here.
  - apply list_elem_of_further, list_elem_of_bind. exists i. split.
    + apply list_elem_of_fmap. exists b. split; [done|].
      apply list_elem_of_filter. split; [done|].
      apply elem_of_seqZ. lia.
    + apply elem_of_seq. lia.
Qed.

Lemma length_all_terminals : length all_terminals = 1276%nat.
Proof. vm_compute. reflexivity. Qed.

Lemma length_target : length target = 5%nat.
Proof. reflexivity. Qed.

Lemma drop_target_all : drop 5 target = [].
Proof. reflexivity. Qed.

Lemma snoc_not_target (i : nat) (b : Z) :
  (i < 5)%nat → b ≠ Z.of_nat i → take i target ++ [b] ≠ target.
Proof.
  intros Hi Hb Heq. destruct (decide (i = 4%nat)) as [->|Hi4].
  - change target with (take 4 target ++ [4]) in Heq at 2.
    apply app_inv_head in Heq. injection Heq as Hb4. apply Hb. exact Hb4.
  - apply (f_equal length) in Heq.
    rewrite length_app, length_take_target, length_target in Heq by lia.
    simpl in Heq. lia.
Qed.

Arguments target : simpl never.

(** *** Executions of the predicate *)

Section Executions.
Variable rnd : nat → Z.

Lemma draw_one (d : record) :
  outcome d = None →
  draw_bytes 1 d
  = if (budget d <? length (drawn d) + 1)%nat then (None, conclude OVERRUN d)
    else (Some [(next_byte d).1], (next_byte d).2).
Proof.
  intros Hout. unfold draw_bytes. rewrite Hout. cbn -[target].
  by destruct (next_byte d).
Qed.

Lemma next_byte_range (d : record) :
  Forall (fun b => 0 ≤ b < 256) (supplied d) →
  0 ≤ (next_byte d).1 < 256
  ∧ Forall (fun b => 0 ≤ b < 256) (supplied (next_byte d).2).
Proof.
  intros Hsup. unfold next_byte. destruct (supplied d) as [|b rest]; cbn -[target].
  - split; [|done]. apply Z.mod_pos_bound. lia.
  - by apply Forall_cons in Hsup.
Qed.

(** An execution with a budget of five bytes or more, from the point
    where the first [i] bytes of [target] have been drawn: it ends on a
    terminal buffer with the status that goes with it, and that buffer
    agrees with the supplied bytes as far as both go. *)
Lemma generation_from (i : nat) (d : record) :
  (i ≤ 5)%nat → outcome d = None → drawn d = take i target →
  (5 ≤ budget d)%nat → Forall (fun b => 0 ≤ b < 256) (supplied d) →
  let d' := lot_of_dead_nodes_from (drop i target) d in
  is_terminal (drawn d')
  ∧ outcome d' = Some (terminal_status (drawn d'))
  ∧ (take i target ++ supplied d `prefix_of` drawn d'
     ∨ drawn d' `prefix_of` take i target ++ supplied d).
Proof.
  remember (5 - i)%nat as k eqn:Hk. revert i d Hk.
  induction k as [|k IH]; intros i d Hk Hi Hout Hdrawn Hbudget Hsup.
  - assert (i = 5%nat) as -> by lia. rewrite drop_target_all. cbn -[target].
    unfold mark_interesting, conclude. rewrite Hout. cbn -[target]. rewrite Hdrawn.
    rewrite take_target_all by done.
    split; [apply target_is_terminal|]. split; [done|].
    right. by apply prefix_app_r.
  - assert (i < 5)%nat as Hi5 by lia.
    rewrite drop_target by done. cbn [lot_of_dead_nodes_from].
    rewrite draw_one by done.
    assert (length (drawn d) = i) as Hlen
      by (rewrite Hdrawn; apply length_take_target; lia).
    destruct (Nat.ltb_spec (budget d) (length (drawn d) + 1)) as [?|_]; [lia|].
    destruct (next_byte_range d Hsup) as [Hb Hsup'].
    assert (drawn (next_byte d).2 = take i target ++ [(next_byte d).1]
            ∧ outcome (next_byte d).2 = None
            ∧ budget (next_byte d).2 = budget d
            ∧ (supplied d = (next_byte d).1 :: supplied (next_byte d).2
               ∨ supplied d = [] ∧ supplied (next_byte d).2 = []))
      as (Hdrawn' & Hout' & Hbudget' & Hsupplied).
    { unfold next_byte. destruct (supplied d) as [|b rest]; cbn -[target];
        rewrite Hdrawn; repeat split; auto. }
    destruct (next_byte d) as [b d1]. cbn -[target] in *.
    destruct (Z.eqb_spec b (Z.of_nat i)) as [->|Hne]; cbn -[target].
    + rewrite <- take_target_S in Hdrawn' by done.
      destruct (IH (S i) d1) as (Hterm & Hstatus & Hpre);
        [lia|lia|done|done|lia|done|].
      split; [done|]. split; [done|].
      rewrite take_target_S in Hpre by done. rewrite <- app_assoc in Hpre.
      destruct Hsupplied as [->|[-> Hnil]]; [done|]. rewrite Hnil in Hpre.
      rewrite app_nil_r. left. destruct Hpre as [Hpre|Hpre].
      * by apply prefix_app_l in Hpre.
      * rewrite <- take_target_S in Hpre by done.
        assert (drawn (lot_of_dead_nodes_from (drop (S i) target) d1)
                = target) as ->.
        { apply terminal_prefix_target; [done|].
          etrans; [exact Hpre|apply prefix_take]. }
        apply prefix_take.
    + unfold mark_invalid, conclude. rewrite Hout'. cbn -[target]. rewrite Hdrawn'.
      split; [right; by exists i, b|]. split.
      * unfold terminal_status. rewrite bool_decide_eq_false_2; [done|].
        by apply snoc_not_target.
      * destruct Hsupplied as [->|[-> _]].
        -- right. apply prefix_app. apply prefix_cons, prefix_nil.
        -- left. rewrite app_nil_r. by apply prefix_app_r.
Qed.

(** A replay has the shape [drawn ++ supplied = buffer], with the budget
    the length of the buffer; it is interesting only if the rest of the
    range is what comes next in the buffer. *)
Lemma replay_from_interesting (range : list Z) (d : record) (label : nat) :
  outcome d = None →
  (length (drawn d) + length (supplied d) = budget d)%nat →
  outcome (lot_of_dead_nodes_from range d) = Some (INTERESTING label) →
  range `prefix_of` supplied d.
Proof.
  revert d. induction range as [|i range IH]; intros d Hout Hshape Hint.
  - apply prefix_nil.
  - cbn -[target] in Hint. rewrite draw_one in Hint by done.
    destruct (Nat.ltb_spec (budget d) (length (drawn d) + 1)) as [Hover|Hfits].
    + unfold conclude in Hint. rewrite Hout in Hint. done.
    + unfold next_byte in Hint.
      destruct (supplied d) as [|b rest] eqn:Hsup; [cbn -[target] in Hshape; lia|].
      cbn -[target] in Hint. destruct (Z.eqb_spec b i) as [->|Hne]; cbn -[target] in Hint.
      * apply prefix_cons.
        apply (IH (MkRecord rest (drawn d ++ [i]) (outcome d) (budget d) (source d) (cursor d)));
          [done| |done].
        cbn -[target] in *. rewrite length_app. cbn -[target]. lia.
      * unfold mark_invalid, conclude in Hint. cbn -[target] in Hint.
        rewrite Hout in Hint. done.
Qed.

(** Replaying a terminal buffer gives the status that goes with it. *)
Lemma replay_from_terminal (i : nat) (d : record) :
  (i ≤ 5)%nat → outcome d = None → drawn d = take i target →
  (length (drawn d) + length (supplied d) = budget d)%nat →
  is_terminal (take i target ++ supplied d) →
  outcome (lot_of_dead_nodes_from (drop i target) d)
  = Some (terminal_status (take i target ++ supplied d)).
Proof.
  remember (5 - i)%nat as k eqn:Hk. revert i d Hk.
  induction k as [|k IH]; intros i d Hk Hi Hout Hdrawn Hshape Hterm.
  - assert (i = 5%nat) as -> by lia. rewrite drop_target_all. cbn -[target].
    unfold mark_interesting, conclude. rewrite Hout. cbn -[target].
    pose proof (terminal_length _ Hterm) as Hlen.
    rewrite take_target_all in Hlen |- * by done.
    rewrite length_app, length_target in Hlen.
    destruct (supplied d); [|cbn -[target] in Hlen; lia].
    by rewrite app_nil_r.
  - assert (i < 5)%nat as Hi5 by lia.
    assert (length (drawn d) = i) as Hlen
      by (rewrite Hdrawn; apply length_take_target; lia).
    destruct (supplied d) as [|b rest] eqn:Hsup.
    { rewrite app_nil_r in Hterm. apply terminal_take in Hterm. lia. }
    rewrite drop_target by done. cbn [lot_of_dead_nodes_from].
    rewrite draw_one by done. cbn -[target] in Hshape.
    destruct (Nat.ltb_spec (budget d) (length (drawn d) + 1)) as [?|_]; [lia|].
    unfold next_byte. rewrite Hsup. cbn -[target].
    destruct (Z.eqb_spec b (Z.of_nat i)) as [->|Hne]; cbn -[target].
    + rewrite (IH (S i)); cbn -[target]; try done; try lia.
      * by rewrite take_target_S, <- app_assoc.
      * by rewrite Hdrawn, take_target_S.
      * rewrite length_app. cbn -[target]. lia.
      * by rewrite take_target_S, <- app_assoc.
    + unfold mark_invalid, conclude. cbn -[target]. rewrite Hout. f_equal.
      unfold terminal_status. rewrite bool_decide_eq_false_2; [done|].
      intros Heq. rewrite <- (take_drop i target) in Heq at 2.
      apply app_inv_head in Heq. rewrite drop_target in Heq by done.
      congruence.
Qed.

Lemma execute_concluded (d : record) (st : status) :
  outcome (lot_of_dead_nodes d) = Some st →
  execute lot_of_dead_nodes d = lot_of_dead_nodes d.
Proof. intros Hst. unfold execute, conclude. by rewrite Hst. Qed.

(** The three facts in the form the Runner uses them. *)
Lemma generation_execution (size pos : nat) (prefix : list Z) :
  (5 ≤ size)%nat → Forall (fun b => 0 ≤ b < 256) prefix →
  let d := execute lot_of_dead_nodes (MkRecord prefix [] None size rnd pos) in
  is_terminal (drawn d) ∧ status_of d = terminal_status (drawn d)
  ∧ (prefix `prefix_of` drawn d ∨ drawn d `prefix_of` prefix).
Proof.
  intros Hsize Hrange.
  pose proof (generation_from 0 (MkRecord prefix [] None size rnd pos)
                ltac:(lia) eq_refl eq_refl Hsize Hrange) as Hgen.
  cbv zeta in Hgen.
  change (lot_of_dead_nodes_from (drop 0 target))
    with lot_of_dead_nodes in Hgen.
  change (take 0 target ++ supplied (MkRecord prefix [] None size rnd pos))
    with prefix in Hgen.
  destruct Hgen as (Hterm & Hstatus & Hpre). cbv zeta.
  rewrite (execute_concluded _ _ Hstatus). unfold status_of.
  by rewrite Hstatus.
Qed.

Lemma replay_interesting (buf : list Z) (label : nat) :
  status_of (replay rnd lot_of_dead_nodes buf) = INTERESTING label →
  target `prefix_of` buf.
Proof.
  unfold replay, status_of, execute. intros Hst.
  apply (replay_from_interesting target (MkRecord buf [] None (length buf) rnd 0) label);
    [done|done|].
  change (lot_of_dead_nodes_from target) with lot_of_dead_nodes.
  destruct (outcome (lot_of_dead_nodes (MkRecord buf [] None (length buf) rnd 0)))
    as [st|] eqn:Hout; unfold conclude in Hst; rewrite Hout in Hst.
  - rewrite Hout in Hst. simpl in Hst. by subst.
  - by simpl in Hst.
Qed.

Lemma replay_terminal (t : list Z) :
  is_terminal t →
  status_of (replay rnd lot_of_dead_nodes t) = terminal_status t.
Proof.
  intros Hterm.
  pose proof (replay_from_terminal 0 (MkRecord t [] None (length t) rnd 0)
                ltac:(lia) eq_refl eq_refl eq_refl Hterm) as Hrep.
  change (lot_of_dead_nodes_from (drop 0 target))
    with lot_of_dead_nodes in Hrep.
  change (take 0 target ++ supplied (MkRecord t [] None (length t) rnd 0))
    with t in Hrep.
  unfold replay. rewrite (execute_concluded _ _ Hrep).
  unfold status_of. by rewrite Hrep.
Qed.
End Executions.

(** *** The Prefix Tree *)

Lemma elem_of_prefixes (buf p : list Z) :
  p ∈ prefixes buf ↔ p `prefix_of` buf.
Proof.
  unfold prefixes. rewrite list_elem_of_fmap. split.
  - intros (n & -> & _). apply prefix_take.
  - intros Hpre. exists (length p). split; [by apply prefix_is_take|].
    apply elem_of_seq. apply prefix_length in Hpre. lia.
Qed.

Lemma take_target_inj (i j : nat) :
  (i ≤ 5)%nat → (j ≤ 5)%nat → take i target = take j target → i = j.
Proof.
  intros Hi Hj Heq. apply (f_equal length) in Heq.
  by rewrite !length_take_target in Heq.
Qed.

Lemma snoc_not_take (i j : nat) (c : Z) :
  (j ≤ i)%nat → (i < 5)%nat → take i target ++ [c] ≠ take j target.
Proof.
  intros Hj Hi Heq. apply (f_equal length) in Heq.
  rewrite length_app, !length_take_target in Heq by lia. simpl in Heq. lia.
Qed.

(** A terminal buffer, by its level and last byte. *)
Lemma terminal_inv (t : list Z) :
  is_terminal t →
  ∃ (i : nat) (b : Z), (i < 5)%nat ∧ 0 ≤ b < 256
    ∧ (b ≠ Z.of_nat i ∨ i = 4%nat) ∧ t = take i target ++ [b].
Proof.
  intros [->|(i & b & Hi & Hb & Hne & ->)].
  - exists 4%nat, 4. split; [lia|]. split; [lia|]. split; [by right|done].
  - exists i, b. auto.
Qed.

Lemma spine_dead_mono (i j : nat) (X : gset (list Z)) :
  (i ≤ j)%nat → spine_dead i X → spine_dead j X.
Proof. intros Hij Hdead k Hk. apply Hdead. lia. Qed.

Lemma dead_when_mono (X X' : gset (list Z)) (p : list Z) :
  X ⊆ X' → dead_when X p → dead_when X' p.
Proof.
  intros Hsub [Hp|(i & Hi & -> & Hdead)]; [left; by apply Hsub|].
  right. exists i. split; [done|]. split; [done|].
  intros j Hj c Hc Hcj. by apply Hsub, Hdead.
Qed.

Section Propagate.
Variable X : gset (list Z).
Hypothesis X_terminals : ∀ t, t ∈ X → is_terminal t.

(** All the children of a node on the way to [target] are dead exactly
    when every level from that node on is complete. *)
Lemma children_settled (k : nat) (D : gset (list Z)) :
  (k < 5)%nat →
  (∀ c, take k target ++ [c] ∈ D ↔ dead_when X (take k target ++ [c])) →
  forallb (fun c => bool_decide (take k target ++ [c] ∈ D)) byte_values = true
  ↔ spine_dead k X.
Proof.
  intros Hk Hchild. rewrite forallb_forall.
  split.
  - intros Hall.
    assert (∀ c, 0 ≤ c < 256 → dead_when X (take k target ++ [c])) as Hdead.
    { intros c Hc. apply Hchild. eapply bool_decide_eq_true_1, Hall.
      apply list_elem_of_In, elem_of_seqZ. lia. }
    intros j Hj. destruct (decide (j = k)) as [->|Hjk].
    + intros c Hc Hck.
      destruct (Hdead c Hc) as [Hin|(i & Hi & Heq & _)]; [done|].
      assert (i = S k) as ->.
      { apply (f_equal length) in Heq.
        rewrite length_app, !length_take_target in Heq by lia.
        simpl in Heq. lia. }
      rewrite take_target_S in Heq by lia. apply app_inv_head in Heq.
      destruct Hck as [Hck|Hck]; [congruence|lia].
    + assert (0 ≤ Z.of_nat k < 256) as Hkr by lia.
      destruct (Hdead _ Hkr) as [Hin|(i & Hi & Heq & Hspine)].
      * rewrite <- take_target_S in Hin by lia.
        apply X_terminals, terminal_take in Hin. lia.
      * rewrite <- take_target_S in Heq by lia.
        apply take_target_inj in Heq as <-; [|lia..].
        apply Hspine. lia.
  - intros Hspine c Hc%list_elem_of_In%elem_of_seqZ.
    apply bool_decide_eq_true_2, Hchild.
    destruct (decide (c ≠ Z.of_nat k ∨ k = 4%nat)) as [Hck|Hck].
    + left. apply (Hspine k); [lia|lia|done].
    + right. exists (S k).
      assert (c = Z.of_nat k ∧ k ≠ 4%nat) as [-> Hk4].
      { split; [destruct (decide (c = Z.of_nat k)); tauto|tauto]. }
      split; [lia|]. split; [by rewrite take_target_S by lia|].
      by apply (spine_dead_mono k); [lia|].
Qed.

Lemma children_dead (k : nat) (D : gset (list Z)) :
  (k < 5)%nat → climbing X k D →
  forallb (fun c => bool_decide (take k target ++ [c] ∈ D)) byte_values = true
  ↔ spine_dead k X.
Proof.
  intros Hk [Hsettled _]. apply children_settled; [done|].
  intros c. apply Hsettled. intros j Hj. by apply snoc_not_take.
Qed.

Lemma propagate_settles (k : nat) (x : Z) (D : gset (list Z)) :
  (k < 5)%nat → climbing X k D →
  ∀ p, p ∈ propagate (x :: reverse (take k target)) D ↔ dead_when X p.
Proof.
  revert x D. induction k as [|k IH]; intros x D Hk Hclimb p;
    cbn [propagate]; rewrite reverse_involutive;
    pose proof (children_dead _ D Hk Hclimb) as Hcheck;
    destruct (forallb _ byte_values) eqn:Hall.
  - (* the root dies *)
    change (reverse (take 0 target)) with (@nil Z). cbn [propagate].
    destruct Hclimb as [Hsettled Hspine].
    destruct (decide (p = take 0 target)) as [->|Hp].
    + split; [|intros _; by apply elem_of_union_l, elem_of_singleton].
      intros _. right. exists 0%nat. split; [lia|]. split; [done|].
      by apply Hcheck.
    + rewrite elem_of_union, elem_of_singleton.
      rewrite <- Hsettled; [tauto|]. intros j Hj. by replace j with 0%nat by lia.
  - (* the root stays alive *)
    destruct Hclimb as [Hsettled Hspine].
    destruct (decide (p = take 0 target)) as [->|Hp].
    + split; [intros Hin; by destruct (Hspine 0%nat ltac:(lia))|].
      intros [Hin|(i & Hi & Heq & Hdead)].
      * apply X_terminals, terminal_take in Hin. lia.
      * apply take_target_inj in Heq as <-; [|lia..].
        apply Hcheck in Hdead. done.
    + apply Hsettled. intros j Hj. by replace j with 0%nat by lia.
  - (* level [S k] dies, go on with level [k] *)
    rewrite take_target_S, reverse_snoc by lia. apply IH; [lia|].
    rewrite <- take_target_S by lia.
    destruct Hclimb as [Hsettled Hspine]. split.
    + intros q Hq. destruct (decide (q = take (S k) target)) as [->|Hne].
      * split; [|intros _; by apply elem_of_union_l, elem_of_singleton].
        intros _. right. exists (S k). split; [lia|]. split; [done|].
        by apply Hcheck.
      * rewrite elem_of_union, elem_of_singleton.
        rewrite <- Hsettled; [tauto|]. intros j Hj.
        destruct (decide (j = S k)) as [->|]; [done|]. apply Hq. lia.
    + intros j Hj. rewrite elem_of_union, elem_of_singleton.
      intros [Heq|Hin].
      * apply take_target_inj in Heq; lia.
      * by apply (Hspine j); [lia|].
  - (* level [S k] stays alive: nothing above it changes *)
    destruct Hclimb as [Hsettled Hspine].
    destruct (decide (p ∈ (fun j => take j target) <$> seq 0 (S (S k))))
      as [(j & -> & Hj%elem_of_seq)%list_elem_of_fmap|Hp].
    + assert (j ≤ S k)%nat as Hj' by lia. clear Hj.
      split; [intros Hin; by destruct (Hspine j Hj')|].
      intros [Hin|(i & Hi & Heq & Hdead)].
      * apply X_terminals, terminal_take in Hin. lia.
      * apply take_target_inj in Heq as <-; [|lia..].
        apply (spine_dead_mono _ (S k)), Hcheck in Hdead; [done|lia].
    + apply Hsettled. intros j Hj ->. apply Hp, list_elem_of_fmap.
      exists j. split; [done|]. apply elem_of_seq. lia.
Qed.
End Propagate.

Lemma complete_other_level (j : nat) (t : list Z) (X : gset (list Z)) :
  (j < 5)%nat → length t ≠ S j → complete j ({[t]} ∪ X) → complete j X.
Proof.
  intros Hj Hlen Hcomplete c Hc Hcj.
  pose proof (Hcomplete c Hc Hcj) as Hin.
  apply elem_of_union in Hin as [Heq%elem_of_singleton|Hin]; [|done].
  destruct Hlen. rewrite <- Heq, length_app, length_take_target by lia.
  simpl. lia.
Qed.

(** Marking a fresh terminal buffer dead and propagating settles the
    tree again. *)
Lemma mark_dead_settles (t : list Z) (X D : gset (list Z)) :
  (∀ t', t' ∈ X → is_terminal t') → (∀ p, p ∈ D ↔ dead_when X p) →
  is_terminal t → t ∉ X →
  ∀ p, p ∈ propagate (reverse t) ({[t]} ∪ D) ↔ dead_when ({[t]} ∪ X) p.
Proof.
  intros HX HD Ht Hfresh.
  destruct (terminal_inv t Ht) as (i & b & Hi & Hb & Hbi & ->).
  rewrite reverse_snoc. apply propagate_settles; [|done|].
  { intros t' [->%elem_of_singleton|Hin]%elem_of_union; [done|by apply HX]. }
  split.
  - intros p Hp. rewrite elem_of_union, elem_of_singleton, HD. split.
    + intros [->|Hdead]; [left; by apply elem_of_union_l, elem_of_singleton|].
      eapply dead_when_mono; [|exact Hdead]. apply union_subseteq_r.
    + intros [[->%elem_of_singleton|Hin]%elem_of_union|(i' & Hi' & -> & Hdead)].
      * by left.
      * right. by left.
      * right. right. exists i'. split; [done|]. split; [done|].
        intros j Hj. apply (complete_other_level j (take i target ++ [b]));
          [lia| |by apply Hdead].
        rewrite length_app, length_take_target by lia. simpl.
        assert (i' ≠ i) by (intros ->; by apply (Hp i)).
        destruct (decide (i' ≤ i)%nat) as [Hle|]; [|lia].
        by destruct (Hp i' Hle).
  - intros j Hj. rewrite elem_of_union, elem_of_singleton, HD.
    intros [Heq|[Hin|(i' & Hi' & Heq & Hdead)]].
    + rewrite <- Heq in Ht. apply terminal_take in Ht. lia.
    + apply HX, terminal_take in Hin. lia.
    + apply take_target_inj in Heq as <-; [|lia..].
      apply Hfresh, (Hdead i); [lia|done|done].
Qed.

Lemma test_function_invariant (rnd : nat → Z) (predicate : record → record)
    (size : nat) (prefix : list Z) (r : runner) :
  let d := execute predicate (MkRecord prefix [] None size rnd (rand_pos r)) in
  invariant r → is_terminal (drawn d) →
  status_of d = terminal_status (drawn d) → drawn d ∉ dom (cache r) →
  invariant (test_function rnd predicate size prefix r)
  ∧ dom (cache (test_function rnd predicate size prefix r))
    = {[drawn d]} ∪ dom (cache r).
Proof.
  intros d [HX Hexplored Hdead Hcache Htable] Ht Hst Hfresh.
  unfold test_function. fold d. set (t := drawn d) in *. rewrite Hst.
  split; [|cbn [cache]; by rewrite dom_insert_L].
  split; cbn [explored dead cache interesting]; rewrite ?dom_insert_L.
  - intros t' [->%elem_of_singleton|Hin]%elem_of_union; [done|by apply HX].
  - intros p. rewrite elem_of_union, elem_of_list_to_set, elem_of_prefixes.
    rewrite Hexplored. split.
    + intros [Hpre|[->|(t' & Hin & Hpre)]]; [right|by left|right].
      * exists t. split; [by apply elem_of_union_l, elem_of_singleton|done].
      * exists t'. split; [by apply elem_of_union_r|done].
    + intros [->|(t' & [->%elem_of_singleton|Hin]%elem_of_union & Hpre)].
      * right. by left.
      * by left.
      * right. right. by exists t'.
  - by apply mark_dead_settles.
  - intros t' st. rewrite lookup_insert.
    destruct (decide (t = t')) as [<-|Hne]; [by intros [= <-]|apply Hcache].
  - unfold record_interesting, terminal_status. rewrite Htable.
    destruct (decide (t = target)) as [Heq|Hne].
    + rewrite (bool_decide_eq_true_2 (t = target)) by done.
      rewrite (bool_decide_eq_false_2 (target ∈ dom (cache r)))
        by (by rewrite <- Heq).
      rewrite lookup_empty, insert_empty, Heq.
      by rewrite bool_decide_eq_true_2
        by (by apply elem_of_union_l, elem_of_singleton).
    + rewrite (bool_decide_eq_false_2 (t = target)) by done.
      destruct (decide (target ∈ dom (cache r))) as [Hin|Hnin].
      * rewrite !bool_decide_eq_true_2; [done| |done]. by apply elem_of_union_r.
      * rewrite !bool_decide_eq_false_2; [done| |done].
        intros [Heq%elem_of_singleton|Hin]%elem_of_union; congruence.
Qed.

(** *** Novel prefixes and GENERATING *)

Section Generating.
Variable rnd : nat → Z.

Lemma choose_elem_of (candidates : list Z) (pos : nat) :
  candidates ≠ [] → choose rnd candidates pos ∈ candidates.
Proof.
  intros Hne. unfold choose.
  assert (0 < Z.of_nat (length candidates)) as Hlen
    by (destruct candidates; [done|simpl; lia]).
  pose proof (Z.mod_pos_bound (rnd pos) _ Hlen) as Hidx.
  destruct (lookup_lt_is_Some_2 candidates
              (Z.to_nat (rnd pos `mod` Z.of_nat (length candidates))))
    as [c Hc]; [lia|].
  rewrite Hc. simpl. by eapply list_elem_of_lookup_2.
Qed.

Lemma target_bytes : Forall (fun b => 0 ≤ b < 256) target.
Proof. unfold target. repeat constructor; lia. Qed.

Lemma invariant_rand_pos (r : runner) (pos : nat) :
  invariant r →
  invariant (MkRunner (explored r) (dead r) (cache r) (interesting r) pos).
Proof. by intros []. Qed.

(** The walk from a live node on the way to [target] ends on an edge that
    has not been explored, within the levels that are left. *)
Lemma novel_prefix_spec (fuel i : nat) (r : runner) :
  invariant r → (i < 5)%nat → (5 ≤ i + fuel)%nat → take i target ∉ dead r →
  ∃ (i' : nat) (c : Z), (i ≤ i' < 5)%nat ∧ 0 ≤ c < 256
    ∧ (novel_prefix rnd fuel (take i target) r).1 = take i' target ++ [c]
    ∧ take i' target ++ [c] ∉ explored r.
Proof.
  revert i r. induction fuel as [|fuel IH]; intros i r Hinv Hi Hfuel Halive;
    [lia|].
  cbn [novel_prefix].
  set (live := filter (fun c => take i target ++ [c] ∉ dead r) byte_values).
  assert (live ≠ []) as Hlive.
  { intros Hnil. apply Halive, (inv_dead r Hinv). right. exists i.
    split; [done|]. split; [done|].
    apply (children_settled (dom (cache r)) (inv_terminals r Hinv) i (dead r));
      [done|intros c; apply (inv_dead r Hinv)|].
    apply forallb_forall. intros c Hc%list_elem_of_In.
    apply bool_decide_eq_true_2.
    destruct (decide (take i target ++ [c] ∈ dead r)) as [|Hnot]; [done|].
    by destruct (filter_nil_not_elem_of _ _ c Hnil Hnot). }
  pose proof (choose_elem_of live (rand_pos r) Hlive) as Hc.
  apply list_elem_of_filter in Hc as [Hcalive Hcrange%elem_of_seqZ].
  destruct live as [|c0 live'] eqn:Hlive'; [done|]. rewrite <- Hlive' in *.
  set (c := choose rnd live (rand_pos r)) in *.
  destruct (bool_decide_reflect (take i target ++ [c] ∈ explored r))
    as [Hexplored|Hnew].
  - apply (inv_explored r Hinv) in Hexplored
      as [Hnil|(t & Ht & Hpre)]; [by destruct (take i target)|].
    assert (take i target ++ [c] ≠ t) as Hne.
    { intros Heq. apply Hcalive, (inv_dead r Hinv). left. by rewrite Heq. }
    destruct (snoc_proper_prefix t i c (inv_terminals r Hinv t Ht) Hpre Hne Hi)
      as [Hci HSi].
    rewrite Hci, <- take_target_S in Hcalive |- * by done.
    destruct (IH (S i) (MkRunner (explored r) (dead r) (cache r)
                                 (interesting r) (S (rand_pos r))))
      as (i' & c' & Hi' & Hc' & Heq & Hfresh);
      [by apply invariant_rand_pos|done|lia|done|].
    exists i', c'. split; [lia|]. done.
  - exists i, c. split; [lia|]. split; [lia|]. done.
Qed.

Lemma remaining_insert (t : list Z) (X : gset (list Z)) :
  is_terminal t → t ∉ X → (remaining ({[t]} ∪ X) < remaining X)%nat.
Proof.
  intros Ht%elem_of_all_terminals Hfresh. unfold remaining.
  induction all_terminals as [|x l IH]; [by apply not_elem_of_nil in Ht|].
  rewrite !filter_cons.
  assert (length (filter (fun t' => t' ∉ {[t]} ∪ X) l)
          ≤ length (filter (fun t' => t' ∉ X) l))%nat as Hle.
  { clear. induction l as [|y l IH]; [done|]. rewrite !filter_cons.
    destruct (decide (y ∉ {[t]} ∪ X)) as [Hy|Hy];
      destruct (decide (y ∉ X)) as [Hy'|Hy']; simpl; try lia.
    destruct Hy'. intros Hin. apply Hy. by apply elem_of_union_r. }
  apply elem_of_cons in Ht as [<-|Hin].
  - rewrite decide_False, decide_True; [simpl; lia|done|].
    intros Hnot. apply Hnot. by apply elem_of_union_l, elem_of_singleton.
  - specialize (IH Hin).
    destruct (decide (x ∉ {[t]} ∪ X)) as [Hy|Hy];
      destruct (decide (x ∉ X)) as [Hy'|Hy']; simpl; try lia.
    destruct Hy'. intros Hin'. apply Hy. by apply elem_of_union_r.
Qed.

Lemma remaining_none (X : gset (list Z)) : remaining X = 0%nat → target ∈ X.
Proof.
  unfold remaining. intros Hnil%nil_length_inv.
  destruct (decide (target ∈ X)) as [|Hnot]; [done|].
  destruct (filter_nil_not_elem_of _ _ target Hnil Hnot).
  apply elem_of_all_terminals, target_is_terminal.
Qed.

Lemma remaining_at_most (X : gset (list Z)) : (remaining X ≤ 1276)%nat.
Proof. unfold remaining. rewrite <- length_all_terminals. apply length_filter. Qed.

Lemma root_dead_found (r : runner) :
  invariant r → [] ∈ dead r → target ∈ dom (cache r).
Proof.
  intros Hinv [Hin|(i & Hi & Heq & Hdead)]%(inv_dead r Hinv).
  - apply (inv_terminals r Hinv), terminal_length in Hin. simpl in Hin. lia.
  - rewrite <- (take_target_all 5), (take_target_S 4) by lia.
    apply (Hdead 4%nat); [|lia|by right].
    assert (i = 0%nat) as -> by (by apply take_target_inj; [lia..|]). lia.
Qed.

(** One round of GENERATING on a tree whose root is alive executes a
    buffer that was not executed before. *)
Lemma generate_round (size : nat) (r : runner) :
  invariant r → (5 ≤ size)%nat → [] ∉ dead r →
  let prefix := (novel_prefix rnd size [] r).1 in
  let pos := (novel_prefix rnd size [] r).2 in
  let r' := test_function rnd lot_of_dead_nodes size prefix
              (MkRunner (explored r) (dead r) (cache r) (interesting r) pos) in
  invariant r'
  ∧ (remaining (dom (cache r')) < remaining (dom (cache r)))%nat.
Proof.
  intros Hinv Hsize Hroot prefix pos.
  destruct (novel_prefix_spec size 0 r Hinv)
    as (i & c & Hi & Hc & Hprefix & Hfresh); [lia|lia|done|].
  change (take 0 target) with (@nil Z) in Hprefix. fold prefix in Hprefix.
  assert (Forall (fun b => 0 ≤ b < 256) prefix) as Hrange.
  { rewrite Hprefix. apply Forall_app. split; [|by apply Forall_singleton].
    apply Forall_take, target_bytes. }
  destruct (generation_execution rnd size pos prefix Hsize Hrange)
    as (Hterm & Hstatus & Hpre).
  set (d := execute lot_of_dead_nodes (MkRecord prefix [] None size rnd pos))
    in *.
  assert (drawn d ∉ dom (cache r)) as Hnew.
  { intros Hin.
    assert (prefix `prefix_of` drawn d) as Hp.
    { destruct Hpre as [Hp|Hp]; [done|].
      destruct (decide (drawn d = prefix)) as [->|Hne]; [done|].
      (* a terminal buffer is no proper prefix of the novel prefix *)
      exfalso. rewrite Hprefix in Hp, Hne. destruct Hp as [k Hk].
      destruct (decide (k = [])) as [->|Hknil];
        [by rewrite app_nil_r in Hk|].
      destruct (exists_last Hknil) as (k' & x & ->).
      rewrite app_assoc in Hk. apply app_inj_tail in Hk as [Hk _].
      assert (drawn d `prefix_of` target) as Hpt.
      { exists (k' ++ drop i target).
        by rewrite app_assoc, <- Hk, take_drop. }
      apply terminal_prefix_target in Hpt; [|done].
      apply (f_equal length) in Hk.
      rewrite length_app, length_take_target, Hpt, length_target in Hk by lia.
      lia. }
    apply Hfresh. rewrite <- Hprefix. apply (inv_explored r Hinv). right.
    by exists (drawn d). }
  destruct (test_function_invariant rnd lot_of_dead_nodes size prefix
              (MkRunner (explored r) (dead r) (cache r) (interesting r) pos))
    as [Hinv' Hdom]; [by apply invariant_rand_pos|done|done|done|].
  split; [done|]. cbv zeta. rewrite Hdom. by apply remaining_insert.
Qed.

(** GENERATING with enough examples left for the buffers not yet executed
    finds [target]. *)
Lemma generate_finds (size examples : nat) (r : runner) :
  invariant r → (5 ≤ size)%nat → (remaining (dom (cache r)) ≤ examples)%nat →
  let r' := generate rnd lot_of_dead_nodes size examples r in
  invariant r' ∧ target ∈ dom (cache r').
Proof.
  revert r. induction examples as [|examples IH]; intros r Hinv Hsize Hleft.
  - simpl. split; [done|]. apply remaining_none. lia.
  - cbn [generate]. destruct (bool_decide_reflect ([] ∈ dead r)) as [Hdead|Hroot].
    + split; [done|]. by apply root_dead_found.
    + destruct (generate_round size r Hinv Hsize Hroot) as [Hinv' Hless].
      destruct (novel_prefix rnd size [] r) as [prefix pos].
      apply IH; [done|done|]. cbn [fst snd] in Hless. lia.
Qed.
End Generating.

(** *** SHRINKING and the whole run *)

Lemma initial_invariant : invariant (MkRunner {[ [] ]} ∅ ∅ ∅ 0%nat).
Proof.
  split; cbn [explored dead cache interesting]; rewrite ?dom_empty_L.
  - intros t Ht. by apply not_elem_of_empty in Ht.
  - intros p. rewrite elem_of_singleton. split; [by left|].
    intros [->|(t & Ht & _)]; [done|]. by apply not_elem_of_empty in Ht.
  - intros p. split; [intros Hp; by apply not_elem_of_empty in Hp|].
    intros [Hp|(i & Hi & _ & Hdead)]; [done|].
    assert (take 4 target ++ [0] ∈ (∅ : gset (list Z))) as Hin
      by (apply (Hdead 4%nat); [lia|lia|by right]).
    by apply not_elem_of_empty in Hin.
  - intros t st. by rewrite lookup_empty.
  - by rewrite bool_decide_eq_false_2 by apply not_elem_of_empty.
Qed.

Lemma shortlex_target (v : list Z) :
  target `prefix_of` v → shortlex v target = false.
Proof.
  intros [k ->]. unfold shortlex. rewrite length_app, length_target.
  destruct k as [|x k]; [by rewrite app_nil_r|]. simpl length.
  destruct (Nat.ltb_spec (5 + S (length k)) 5); [lia|].
  destruct (Nat.eqb_spec (5 + S (length k)) 5); [lia|]. done.
Qed.

Section Shrinking.
Variable rnd : nat → Z.
Context {U : Type}.
Variable short_circuit : U → Shrinker.prog (list Z) (bool * U).
Variable preamble : U → Shrinker.prog (list Z) U.
Variable run_step : U → Shrinker.prog (list Z) U.
Variable u0 : U.

Lemma still_interesting_sound (label : nat) (buf : list Z)
    (c : gmap (list Z) status) :
  cache_sound rnd c →
  cache_sound rnd (still_interesting rnd lot_of_dead_nodes label buf c).2
  ∧ ((still_interesting rnd lot_of_dead_nodes label buf c).1 = true →
     target `prefix_of` buf).
Proof.
  intros Hc. unfold still_interesting, cached_test.
  destruct (c !! buf) as [st|] eqn:Hlookup; cbn [fst snd].
  - split; [done|]. intros Hst%bool_decide_eq_true_1. subst st.
    apply (replay_interesting rnd buf label). symmetry. by apply Hc.
  - split.
    + intros b st. rewrite lookup_insert.
      destruct (decide (buf = b)) as [<-|Hne]; [by intros [= <-]|apply Hc].
    + intros Hst%bool_decide_eq_true_1.
      by apply (replay_interesting rnd buf label).
Qed.

(** A shrink session that starts on [target] with a sound cache stays on
    [target]: nothing better is interesting. *)
Lemma shrink_session_fixed (label : nat) (fuel : nat)
    (su : Shrinker.shrinker (list Z) (gmap (list Z) status) nat * U) :
  cache_sound rnd (Shrinker.world su.1) → Shrinker.current su.1 = target →
  let s' := (Shrinker.run id shortlex (still_interesting rnd lot_of_dead_nodes label)
               short_circuit preamble run_step fuel su).2.1 in
  cache_sound rnd (Shrinker.world s') ∧ Shrinker.current s' = target.
Proof.
  intros Hsound Hcurrent.
  apply (ShrinkerFacts.evolves_run id shortlex
           (still_interesting rnd lot_of_dead_nodes label)
           short_circuit preamble run_step
           (fun s s' =>
              cache_sound rnd (Shrinker.world s) ∧ Shrinker.current s = target →
              cache_sound rnd (Shrinker.world s') ∧ Shrinker.current s' = target));
    [done|by eauto| |done|done].
  intros v s b s' Hpath [Hs Hc].
  destruct Hpath as [Hb|Hb Hseen|w Hb Hseen Hp|w Hb Hseen Hp];
    cbn [Shrinker.world Shrinker.current]; [done|done| |].
  - split; [|done].
    pose proof (still_interesting_sound label v _ Hs) as [Hw _].
    by rewrite Hp in Hw.
  - pose proof (still_interesting_sound label v _ Hs) as [_ Hv].
    rewrite Hp in Hv. rewrite Hc, shortlex_target in Hb by by apply Hv.
    done.
Qed.

Lemma invariant_cache_sound (r : runner) : invariant r → cache_sound rnd (cache r).
Proof.
  intros Hinv t st Hlookup.
  rewrite (inv_cache r Hinv t st Hlookup). symmetry. apply replay_terminal.
  apply (inv_terminals r Hinv), elem_of_dom. by eexists.
Qed.

Lemma shrink_all_fixed (fuel : nat) (r : runner) :
  invariant r → target ∈ dom (cache r) →
  interesting (shrink_all rnd lot_of_dead_nodes short_circuit preamble run_step
                 u0 fuel r)
  = {[default_label := target]}.
Proof.
  intros Hinv Hfound. unfold shrink_all.
  rewrite (inv_interesting r Hinv), bool_decide_eq_true_2 by done.
  rewrite map_to_list_singleton. cbn [foldl]. unfold shrink_label.
  cbn [interesting fst snd].
  destruct (shrink_session_fixed default_label fuel
              (Shrinker.init id target (cache r) (rand_pos r) true, u0))
    as [_ ->]; [by apply invariant_cache_sound|done|].
  rewrite (inv_interesting r Hinv), bool_decide_eq_true_2 by done.
  apply insert_singleton_eq.
Qed.

Lemma run_engine_found (size examples : nat) (shrinking : bool) (fuel : nat) :
  (5 ≤ size)%nat → (1276 ≤ examples)%nat →
  run_engine rnd lot_of_dead_nodes short_circuit preamble run_step u0
    size examples shrinking fuel
  = {[default_label := target]}.
Proof.
  intros Hsize Hexamples. unfold run_engine.
  destruct (generate_finds rnd size examples (MkRunner {[ [] ]} ∅ ∅ ∅ 0%nat)
              initial_invariant Hsize) as [Hinv Hfound].
  { etrans; [apply remaining_at_most|done]. }
  destruct shrinking.
  - by apply shrink_all_fixed.
  - by rewrite (inv_interesting _ Hinv), bool_decide_eq_true_2.
Qed.
End Shrinking.

(** C9. A run of the Conjecture Runner on the predicate of
    [test_lot_of_dead_nodes], whatever the randomness source and the
    shrink passes, with a buffer budget of five bytes or more and an
    example budget that covers the 1276 buffers an execution can end on:
    the table it reports holds exactly the buffer [0, 1, 2, 3, 4], under
    the label of the one [mark_interesting()] call. *)
Theorem lot_of_dead_nodes_found {U : Type}
    (short_circuit : U → Shrinker.prog (list Z) (bool * U))
    (preamble run_step : U → Shrinker.prog (list Z) U) (u0 : U)
    (cfg : config) (fuel : nat) :
  (5 ≤ max_buffer_size cfg)%nat → (1276 ≤ max_examples cfg)%nat →
  conjecture_run lot_of_dead_nodes short_circuit preamble run_step u0 cfg fuel
  = {[default_label := [0; 1; 2; 3; 4]]}.
Proof. intros Hsize Hexamples. by apply run_engine_found. Qed.


(** The run with the settings above, a randomness source that counts up,
    and the pass that drops the last byte. *)
Lemma lot_of_dead_nodes_found_witness :
  (5 ≤ max_buffer_size (settings Z.of_nat))%nat
  ∧ (1276 ≤ max_examples (settings Z.of_nat))%nat
  ∧ conjecture_run lot_of_dead_nodes no_short_circuit no_preamble drop_last tt
      (settings Z.of_nat) 10
    = {[default_label := [0; 1; 2; 3; 4]]}.
Proof.
  assert (5 ≤ max_buffer_size (settings Z.of_nat))%nat as Hsize
    by (simpl; lia).
  assert (1276 ≤ max_examples (settings Z.of_nat))%nat as Hexamples
    by (simpl; lia).
  split; [exact Hsize|]. split; [exact Hexamples|].
  exact (lot_of_dead_nodes_found no_short_circuit no_preamble drop_last tt
           (settings Z.of_nat) 10 Hsize Hexamples).
Defined.

(** With a source of zeros the walk takes the first live byte at each
    node: 300 examples are enough then. *)
Example run_engine_zeros :
  run_engine (fun _ => 0) lot_of_dead_nodes no_short_circuit no_preamble
    drop_last tt 5 300 true 10
  = {[default_label := [0; 1; 2; 3; 4]]}.
Proof. vm_compute. reflexivity. Qed.

End DeadNodesFacts.

(** * Further properties of [find_integer] *)

Module FindIntegerMore.
Import FindInteger FindIntegerFacts Answers.

(** *** What the answers of the callback say about the result *)

(** Membership in a log that has grown at its end. *)
Local Ltac in_log :=
  rewrite ?elem_of_app, ?elem_of_cons, ?list_elem_of_singleton; tauto.

Section Contract.
Context {St : Type}.
Variable f : Z → St → bool * St.

Lemma probe_up_answers (fuel : nat) (lo hi : Z) (s : St) (l : list (Z * bool)) :
  (lo, true) ∈ l → lo < hi → 0 < hi →
  let out := probe_up (recording_answers f) fuel lo hi (s, l) in
  match out.1 with
  | Some (lo', hi') =>
      lo ≤ lo' ∧ lo' < hi' ∧ (lo', true) ∈ out.2.2 ∧ (hi', false) ∈ out.2.2
  | None => True
  end.
Proof.
  revert lo hi s l. induction fuel as [|fuel IH]; intros lo hi s l Hlo Hlt Hhi;
    simpl; [done|].
  destruct (f hi s) as [[] s']; simpl.
  - assert ((hi, true) ∈ l ++ [(hi, true)]) as Hin by in_log.
    specialize (IH hi (hi * 2) s' (l ++ [(hi, true)]) Hin ltac:(lia) ltac:(lia)).
    cbv zeta in IH.
    destruct (probe_up _ fuel hi (hi * 2) _).1 as [[lo' hi']|]; [|done].
    destruct IH as (H1 & H2 & H3 & H4). split; [lia|done].
  - split; [lia|]. split; [done|]. split; in_log.
Qed.

Lemma bisect_answers (fuel : nat) (lo hi : Z) (s : St) (l : list (Z * bool)) :
  (lo, true) ∈ l → (hi, false) ∈ l → lo < hi →
  let out := bisect (recording_answers f) fuel lo hi (s, l) in
  match out.1 with
  | Some r => lo ≤ r ∧ (r, true) ∈ out.2.2 ∧ (r + 1, false) ∈ out.2.2
  | None => True
  end.
Proof.
  revert lo hi s l. induction fuel as [|fuel IH]; intros lo hi s l Hlo Hhi Hlt;
    simpl; [done|].
  destruct (Z.ltb_spec (lo + 1) hi) as [Hgap|Hnext].
  - pose proof (midpoint_inside lo hi Hgap) as Hmid.
    destruct (f ((lo + hi) `div` 2) s) as [[] s']; simpl.
    + assert (((lo + hi) `div` 2, true) ∈ l ++ [((lo + hi) `div` 2, true)])
        as Hmt by in_log.
      assert ((hi, false) ∈ l ++ [((lo + hi) `div` 2, true)]) as Hhf
        by in_log.
      specialize (IH ((lo + hi) `div` 2) hi s' _ Hmt Hhf ltac:(lia)).
      cbv zeta in IH.
      destruct (bisect _ fuel _ hi _).1 as [r|]; [|done].
      destruct IH as (H1 & H2 & H3). split; [lia|done].
    + assert ((lo, true) ∈ l ++ [((lo + hi) `div` 2, false)]) as Hlt'
        by in_log.
      assert (((lo + hi) `div` 2, false) ∈ l ++ [((lo + hi) `div` 2, false)])
        as Hmf by in_log.
      apply (IH lo ((lo + hi) `div` 2) s' _ Hlt' Hmf). lia.
  - simpl. split; [lia|]. split; [done|].
    by replace (lo + 1) with hi by lia.
Qed.
End Contract.

(** X1. The contract of the docstring, for a callback with side effects:
    when [find_integer] returns [r], then [r >= 0], the callback answered
    False at [r + 1], and [r] is 0 or the callback answered True at [r]. *)
Theorem find_integer_contract {St : Type} (f : Z → St → bool * St)
    (fuel : nat) (s : St) (r : Z) :
  (find_integer (recording_answers f) fuel (s, [])).1 = Some r →
  0 ≤ r
  ∧ (r + 1, false) ∈ (find_integer (recording_answers f) fuel (s, [])).2.2
  ∧ (r = 0 ∨ (r, true) ∈ (find_integer (recording_answers f) fuel (s, [])).2.2).
Proof.
  unfold find_integer. simpl.
  destruct (f 1 s) as [[] s1]; simpl;
    [|intros [= <-]; split; [lia|]; split; [set_solver|by left]].
  destruct (f 2 s1) as [[] s2]; simpl;
    [|intros [= <-]; split; [lia|]; split; [set_solver|right; set_solver]].
  destruct (f 3 s2) as [[] s3]; simpl;
    [|intros [= <-]; split; [lia|]; split; [set_solver|right; set_solver]].
  destruct (f 4 s3) as [[] s4]; simpl;
    [|intros [= <-]; split; [lia|]; split; [set_solver|right; set_solver]].
  set (l := [(1, true); (2, true); (3, true); (4, true)]).
  pose proof (probe_up_answers f fuel 4 5 s4 l) as Hup.
  destruct (probe_up (recording_answers f) fuel 4 5 (s4, l))
    as [[[lo hi]|] [s5 l5]]; [|done].
  destruct Hup as (Hlo & Hlt & Htrue & Hfalse); [set_solver|lia|lia|].
  simpl in *.
  pose proof (bisect_answers f fuel lo hi s5 l5 Htrue Hfalse Hlt) as Hbis.
  destruct (bisect (recording_answers f) fuel lo hi (s5, l5)) as [[r'|] [s6 l6]];
    [|done].
  simpl in *. intros [= <-]. destruct Hbis as (H1 & H2 & H3).
  split; [lia|]. split; [done|by right].
Qed.

(** X2. Whatever the callback does and answers, it is never called on 0
    or on a negative number: every argument is 1 or more. *)
Theorem find_integer_probes_positive {St : Type} (f : Z → St → bool * St)
    (fuel : nat) (s : St) :
  Forall (fun x => 1 ≤ x) (find_integer (recording f) fuel (s, [])).2.2.
Proof.
  destruct (find_integer_recording f fuel s) as (ps & _ & Hpos & Heq).
  rewrite Heq. cbn [snd]. by apply Forall_forall.
Qed.

(** *** More fuel, and how many calls *)

Section Fuel.
Context {St : Type}.
Variable f : Z → St → bool * St.

Lemma probe_up_more_fuel (fuel k : nat) (lo hi : Z) (s : St) (r : Z * Z) :
  (probe_up f fuel lo hi s).1 = Some r →
  probe_up f (fuel + k) lo hi s = probe_up f fuel lo hi s.
Proof.
  revert lo hi s. induction fuel as [|fuel IH]; intros lo hi s; simpl; [done|].
  destruct (f hi s) as [[] s']; [apply IH|done].
Qed.

Lemma bisect_more_fuel (fuel k : nat) (lo hi : Z) (s : St) (r : Z) :
  (bisect f fuel lo hi s).1 = Some r →
  bisect f (fuel + k) lo hi s = bisect f fuel lo hi s.
Proof.
  revert lo hi s. induction fuel as [|fuel IH]; intros lo hi s; simpl; [done|].
  destruct (lo + 1 <? hi); [|done].
  destruct (f ((lo + hi) `div` 2) s) as [[] s']; apply IH.
Qed.

Lemma find_integer_more_fuel (fuel k : nat) (s : St) (r : Z) :
  (find_integer f fuel s).1 = Some r →
  find_integer f (fuel + k) s = find_integer f fuel s.
Proof.
  unfold find_integer. destruct (linear_scan f [1; 2; 3; 4] s) as [[r1|] s1];
    [done|].
  destruct (probe_up f fuel 4 5 s1) as [[[lo hi]|] s2] eqn:Hup; [|done].
  rewrite (probe_up_more_fuel fuel k 4 5 s1 (lo, hi)), Hup by by rewrite Hup.
  apply bisect_more_fuel.
Qed.

(** The exponential probe ends below [hi * 2^fuel]. *)
Lemma probe_up_bound (fuel : nat) (lo hi : Z) (s : St) (lo' hi' : Z) :
  (probe_up f fuel lo hi s).1 = Some (lo', hi') → 0 < hi → lo ≤ hi →
  lo ≤ lo' ∧ hi' * 2 ≤ hi * 2 ^ Z.of_nat fuel.
Proof.
  revert lo hi s. induction fuel as [|fuel IH]; intros lo hi s;
    cbn [probe_up]; [done|].
  intros Hup Hhi Hlo.
  assert (0 < 2 ^ Z.of_nat fuel) as Hpow by (apply Z.pow_pos_nonneg; lia).
  rewrite Nat2Z.inj_succ, Z.pow_succ_r by lia.
  destruct (f hi s) as [[] s'].
  - apply IH in Hup as [H1 H2]; [|lia..]. split; [lia|nia].
  - simpl in Hup. injection Hup as <- <-. split; [lia|nia].
Qed.
End Fuel.

Section Calls.
Context {St : Type}.
Variable f : Z → St → bool * St.

Lemma linear_scan_calls (range : list Z) (s : St) (l : list Z) :
  (length (linear_scan (recording f) range (s, l)).2.2
   ≤ length l + length range)%nat.
Proof.
  revert s l. induction range as [|i range IH]; intros s l; simpl; [lia|].
  destruct (f i s) as [[] s']; simpl.
  - etrans; [apply IH|]. rewrite length_app. simpl. lia.
  - rewrite length_app. simpl. lia.
Qed.

Lemma probe_up_calls (fuel : nat) (lo hi : Z) (s : St) (l : list Z) :
  (length (probe_up (recording f) fuel lo hi (s, l)).2.2 ≤ length l + fuel)%nat.
Proof.
  revert lo hi s l. induction fuel as [|fuel IH]; intros lo hi s l; simpl; [lia|].
  destruct (f hi s) as [[] s']; simpl.
  - etrans; [apply IH|]. rewrite length_app. simpl. lia.
  - rewrite length_app. simpl. lia.
Qed.

Lemma bisect_calls (fuel : nat) (lo hi : Z) (s : St) (l : list Z) :
  (length (bisect (recording f) fuel lo hi (s, l)).2.2 ≤ length l + fuel)%nat.
Proof.
  revert lo hi s l. induction fuel as [|fuel IH]; intros lo hi s l; simpl; [lia|].
  destruct (lo + 1 <? hi); [|simpl; lia].
  destruct (f ((lo + hi) `div` 2) s) as [[] s']; simpl;
    (etrans; [apply IH|]); rewrite length_app; simpl; lia.
Qed.

(** Each loop calls the callback at most once per unit of fuel. *)
Lemma find_integer_calls (fuel : nat) (s : St) :
  (length (find_integer (recording f) fuel (s, [])).2.2 ≤ 4 + 2 * fuel)%nat.
Proof.
  unfold find_integer.
  pose proof (linear_scan_calls [1; 2; 3; 4] s []) as H1.
  destruct (linear_scan (recording f) [1; 2; 3; 4] (s, [])) as [[r1|] [s1 l1]];
    simpl in *; [lia|].
  pose proof (probe_up_calls fuel 4 5 s1 l1) as H2.
  destruct (probe_up (recording f) fuel 4 5 (s1, l1)) as [[[lo hi]|] [s2 l2]];
    simpl in *; [|lia].
  pose proof (bisect_calls fuel lo hi s2 l2) as H3. lia.
Qed.
End Calls.

(** X3. On the predicate [i <= n] the callback is called at most
    [2 * log2 n + 8] times, however much fuel the loops are given beyond
    what they need. *)
Theorem find_integer_below_calls (n : Z) (fuel : nat) :
  0 ≤ n → (Z.to_nat (Z.log2 n) + 2 ≤ fuel)%nat →
  (length (run_pure fuel (below n)).2 ≤ 2 * Z.to_nat (Z.log2 n) + 8)%nat.
Proof.
  intros Hn Hfuel. set (fuel0 := (Z.to_nat (Z.log2 n) + 2)%nat).
  assert (n < 2 ^ Z.of_nat (fuel0 - 1)) as Hpow.
  { replace (Z.of_nat (fuel0 - 1)) with (Z.log2 n + 1)
      by (pose proof (Z.log2_nonneg n); lia).
    destruct (decide (n = 0)) as [->|]; [done|].
    pose proof (Z.log2_spec n). lia. }
  assert ((find_integer (recording (pure_pred (below n))) fuel0 (tt, [])).1
          = Some n) as Hret.
  { destruct (find_integer_recording (pure_pred (below n)) fuel0 tt)
      as (ps & _ & _ & ->).
    replace fuel0 with (S (fuel0 - 1)) by lia.
    by rewrite find_integer_below_plain. }
  unfold run_pure. replace fuel with (fuel0 + (fuel - fuel0))%nat by lia.
  rewrite (find_integer_more_fuel _ _ _ _ _ Hret).
  pose proof (find_integer_calls (pure_pred (below n)) fuel0 tt) as Hcalls.
  destruct (find_integer (recording (pure_pred (below n))) fuel0 (tt, []))
    as [r [[] l]]. simpl in *. lia.
Qed.

(** The instance [n = 100]: sixteen calls, under the bound of twenty. *)
Lemma find_integer_below_calls_witness :
  0 ≤ 100 ∧ (Z.to_nat (Z.log2 100) + 2 ≤ 10)%nat
  ∧ (length (run_pure 10 (below 100)).2 ≤ 2 * Z.to_nat (Z.log2 100) + 8)%nat.
Proof.
  split; [lia|]. split; [vm_compute; lia|].
  apply (find_integer_below_calls 100 10); [lia|vm_compute; lia].
Defined.

(** X4. Only the exponential probe can keep [find_integer] from
    returning: if the probe [while f(hi)] comes to an end, the binary
    search does too, whatever the callback answers, and the call returns
    (three more units of fuel cover the binary search). *)
Theorem find_integer_returns_after_probe {St : Type} (f : Z → St → bool * St)
    (fuel : nat) (s : St) :
  is_Some (probe_up f fuel 4 5 (linear_scan f [1; 2; 3; 4] s).2).1 →
  is_Some (find_integer f (fuel + 3) s).1.
Proof.
  unfold find_integer.
  destruct (linear_scan f [1; 2; 3; 4] s) as [[r1|] s1]; [by eexists|].
  cbn [snd]. intros [[lo hi] Hup].
  rewrite (probe_up_more_fuel f fuel 3 4 5 s1 (lo, hi) Hup).
  destruct (probe_up_bound f fuel 4 5 s1 lo hi Hup) as [Hlo Hhi]; [lia..|].
  destruct (probe_up f fuel 4 5 s1) as [o s2]. simpl in Hup. subst o.
  replace (fuel + 3)%nat with (S (fuel + 2)) by lia.
  apply bisect_returns.
  rewrite Nat2Z.inj_add, Z.pow_add_r by lia. change (2 ^ Z.of_nat 2) with 4.
  lia.
Qed.

(** The instance of a predicate that is true up to 12 and again at 17:
    the probe stops at 20. *)
Lemma find_integer_returns_after_probe_witness :
  is_Some (probe_up (pure_pred (fun i => (i <=? 12) || (i =? 17))) 3 4 5
             (linear_scan (pure_pred (fun i => (i <=? 12) || (i =? 17)))
                [1; 2; 3; 4] tt).2).1
  ∧ is_Some (find_integer (pure_pred (fun i => (i <=? 12) || (i =? 17)))
               (3 + 3) tt).1.
Proof.
  assert (is_Some (probe_up (pure_pred (fun i => (i <=? 12) || (i =? 17))) 3 4 5
             (linear_scan (pure_pred (fun i => (i <=? 12) || (i =? 17)))
                [1; 2; 3; 4] tt).2).1) as Hup by (vm_compute; eauto).
  split; [exact Hup|].
  exact (find_integer_returns_after_probe _ 3 tt Hup).
Defined.

(** *** The contract on a predicate without side effects *)

Section PureContract.
Variable p : Z → bool.

Lemma probe_up_pure_contract (fuel : nat) (lo hi lo' hi' : Z) :
  (probe_up (pure_pred p) fuel lo hi tt).1 = Some (lo', hi') →
  p lo = true → lo < hi → 0 < hi →
  lo ≤ lo' ∧ lo' < hi' ∧ p lo' = true ∧ p hi' = false.
Proof.
  revert lo hi. induction fuel as [|fuel IH]; intros lo hi; [done|].
  rewrite probe_up_pure_S. destruct (p hi) eqn:Hphi.
  - intros Hup Hlo Hlt Hhi.
    destruct (IH hi (hi * 2) Hup Hphi) as (H1 & H2 & H3 & H4); [lia..|].
    split; [lia|done].
  - intros [= <- <-] Hlo Hlt Hhi. split; [lia|done].
Qed.

Lemma bisect_pure_contract (fuel : nat) (lo hi r : Z) :
  (bisect (pure_pred p) fuel lo hi tt).1 = Some r →
  p lo = true → p hi = false → lo < hi →
  lo ≤ r ∧ p r = true ∧ p (r + 1) = false.
Proof.
  revert lo hi. induction fuel as [|fuel IH]; intros lo hi; [done|].
  rewrite bisect_pure_S. destruct (Z.ltb_spec (lo + 1) hi) as [Hgap|Hnext].
  - pose proof (midpoint_inside lo hi Hgap) as Hmid.
    destruct (p ((lo + hi) `div` 2)) eqn:Hpm; intros Hbis Hlo Hhi Hlt.
    + destruct (IH _ _ Hbis Hpm Hhi) as (H1 & H2 & H3); [lia|].
      split; [lia|done].
    + apply (IH _ _ Hbis Hlo Hpm). lia.
  - intros [= <-] Hlo Hhi Hlt. split; [lia|]. split; [done|].
    by replace (lo + 1) with hi by lia.
Qed.
End PureContract.

(** X5. The contract of the docstring on a predicate without side
    effects, monotonic or not: when [find_integer] returns [r], then
    [r >= 0], the predicate is false at [r + 1], and [r] is 0 or the
    predicate is true at [r]. *)
Theorem find_integer_pure_contract (p : Z → bool) (fuel : nat) (r : Z) :
  (run_pure fuel p).1 = Some r →
  0 ≤ r ∧ p (r + 1) = false ∧ (r = 0 ∨ p r = true).
Proof.
  rewrite run_pure_result. unfold find_integer.
  destruct (p 1) eqn:H1; [destruct (p 2) eqn:H2; [destruct (p 3) eqn:H3;
    [destruct (p 4) eqn:H4|]|]|].
  - rewrite linear_scan_all_true by done.
    destruct (probe_up (pure_pred p) fuel 4 5 tt) as [[[lo hi]|] []] eqn:Hup;
      [|done].
    destruct (probe_up_pure_contract p fuel 4 5 lo hi) as (Hlo & Hlt & Hpl & Hph);
      [by rewrite Hup|done|lia|lia|].
    intros Hbis.
    destruct (bisect_pure_contract p fuel lo hi r Hbis Hpl Hph Hlt)
      as (Hr & Hpr & Hpr1).
    split; [lia|]. split; [done|by right].
  - simpl. unfold pure_pred. rewrite H1, H2, H3, H4. simpl.
    intros [= <-]. split; [lia|]. split; [done|by right].
  - simpl. unfold pure_pred. rewrite H1, H2, H3. simpl.
    intros [= <-]. split; [lia|]. split; [done|by right].
  - simpl. unfold pure_pred. rewrite H1, H2. simpl.
    intros [= <-]. split; [lia|]. split; [done|by right].
  - simpl. unfold pure_pred. rewrite H1. simpl.
    intros [= <-]. split; [lia|]. split; [done|by left].
Qed.

(** The instance of a predicate that is true up to 12 and again at 17:
    the search ends on 12. *)
Lemma find_integer_pure_contract_witness :
  (run_pure 6 (fun i => (i <=? 12) || (i =? 17))).1 = Some 12
  ∧ 0 ≤ 12
  ∧ (fun i => (i <=? 12) || (i =? 17)) (12 + 1) = false
  ∧ (12 = 0 ∨ (fun i => (i <=? 12) || (i =? 17)) 12 = true).
Proof.
  assert ((run_pure 6 (fun i => (i <=? 12) || (i =? 17))).1 = Some 12) as Hret
    by reflexivity.
  split; [exact Hret|].
  exact (find_integer_pure_contract _ 6 12 Hret).
Defined.

(** The instance [i <= 7], ten units of fuel. *)
Lemma find_integer_contract_witness :
  (find_integer (recording_answers (pure_pred (below 7))) 10 (tt, [])).1 = Some 7
  ∧ 0 ≤ 7
  ∧ (7 + 1, false)
    ∈ (find_integer (recording_answers (pure_pred (below 7))) 10 (tt, [])).2.2
  ∧ (7 = 0 ∨ (7, true)
             ∈ (find_integer (recording_answers (pure_pred (below 7))) 10
                  (tt, [])).2.2).
Proof.
  assert ((find_integer (recording_answers (pure_pred (below 7))) 10 (tt, [])).1
          = Some 7) as Hret by reflexivity.
  split; [exact Hret|].
  exact (find_integer_contract (pure_pred (below 7)) 10 tt 7 Hret).
Defined.

End FindIntegerMore.

(** * Further properties of [Shrinker] *)

Module ShrinkerMore.
Import Shrinker ShrinkerFacts.

Section Class.
Context {V : Type} `{Countable V}.
Context {W R U : Type}.
Local Abbreviation session := (shrinker V W R).

Variable make_immutable : V → V.
Variable left_is_better : V → V → bool.
Variable predicate : V → W → bool * W.
Variable short_circuit : U → prog V (bool * U).
Variable preamble : U → prog V U.
Variable run_step : U → prog V U.

Local Abbreviation incorporate := (incorporate make_immutable left_is_better predicate).
Local Abbreviation consider := (consider make_immutable left_is_better predicate).
Local Abbreviation init := (init (W:=W) (R:=R) make_immutable).
Local Abbreviation incorporate_path := (incorporate_path left_is_better predicate).
Local Abbreviation do_run_step :=
  (do_run_step make_immutable left_is_better predicate run_step).
Local Abbreviation do_preamble :=
  (do_preamble make_immutable left_is_better predicate preamble).
Local Abbreviation do_short_circuit :=
  (do_short_circuit make_immutable left_is_better predicate short_circuit).
Local Abbreviation run_loop :=
  (run_loop make_immutable left_is_better predicate run_step).
Local Abbreviation run :=
  (run make_immutable left_is_better predicate short_circuit preamble run_step).
Local Abbreviation shrink :=
  (shrink make_immutable left_is_better predicate short_circuit preamble run_step).
Local Abbreviation evolves_run :=
  (evolves_run make_immutable left_is_better predicate
     short_circuit preamble run_step).

(** *** The value a session ends on *)


(** *** The seen-set *)

(** What a session keeps true of its seen-set, with [seed] the canonical
    seed. *)
Lemma path_seen_tested (seed v : V) (s : session) (b : bool) (s' : session) :
  incorporate_path v s b s' →
  seen s = list_to_set (predicate_calls (calls s))
  ∧ changes s ≤ Z.of_nat (length (predicate_calls (calls s)))
  ∧ (current s = seed ∨ current s ∈ seen s) →
  seen s' = list_to_set (predicate_calls (calls s'))
  ∧ changes s' ≤ Z.of_nat (length (predicate_calls (calls s')))
  ∧ (current s' = seed ∨ current s' ∈ seen s').
Proof.
  unfold predicate_calls.
  destruct 1 as [Hb|Hb Hs|w' Hb Hs Hp|w' Hb Hs Hp]; simpl;
    rewrite omap_app; simpl; rewrite ?app_nil_r; try done.
  all: intros (Hseen & Hchanges & Hcurrent);
    rewrite list_to_set_app_L, length_app, <- Hseen; simpl;
    rewrite union_empty_r_L, (union_comm_L (seen s)).
  - split; [done|]. split; [lia|].
    destruct Hcurrent as [->|Hin]; [by left|right; by apply elem_of_union_r].
  - split; [done|]. split; [lia|]. right.
    by apply elem_of_union_l, elem_of_singleton.
Qed.

(** X7. In a session that starts from [__init__], at the end of [run] or
    at any point of it: the seen-set is exactly the set of values the
    predicate was called on, with as many elements as there were calls;
    [changes] is at most that number; and [current] is the canonical seed
    or one of these values. *)
Theorem seen_is_tested (initial : V) (w : W) (rnd : R) (fl : bool) (u0 : U)
    (fuel : nat) :
  let s' := (run fuel (init initial w rnd fl, u0)).2.1 in
  seen s' = list_to_set (predicate_calls (calls s'))
  ∧ size (seen s') = length (predicate_calls (calls s'))
  ∧ changes s' ≤ Z.of_nat (length (predicate_calls (calls s')))
  ∧ (current s' = make_immutable initial ∨ current s' ∈ seen s').
Proof.
  pose proof (evolves_run
    (fun s s' =>
       seen s = list_to_set (predicate_calls (calls s))
       ∧ changes s ≤ Z.of_nat (length (predicate_calls (calls s)))
       ∧ (current s = make_immutable initial ∨ current s ∈ seen s) →
       seen s' = list_to_set (predicate_calls (calls s'))
       ∧ changes s' ≤ Z.of_nat (length (predicate_calls (calls s')))
       ∧ (current s' = make_immutable initial ∨ current s' ∈ seen s'))
    (fun s Hs => Hs) (fun s1 s2 s3 H12 H23 Hs => H23 (H12 Hs))
    (path_seen_tested (make_immutable initial))) as Hrun.
  destruct (Hrun ltac:(intros c s Hc; unfold predicate_calls; simpl;
                       rewrite omap_app; destruct c; try done; simpl;
                       by rewrite app_nil_r)
              fuel (init initial w rnd fl, u0))
    as (Hseen & Hchanges & Hcurrent).
  { simpl. split; [done|]. split; [done|by left]. }
  pose proof (evolves_run (fun s s' => tested_once s → tested_once s')
                (fun s Hs => Hs) (fun s1 s2 s3 H12 H23 Hs => H23 (H12 Hs))
                (path_tested_once left_is_better predicate)
                log_tested_once fuel (init initial w rnd fl, u0)
                (init_tested_once make_immutable initial w rnd fl))
    as [Hnodup _].
  cbv zeta. split; [done|]. split; [|done].
  rewrite Hseen at 1. by apply size_list_to_set.
Qed.

(** *** Submitting a value again *)

(** After any path of [incorporate] on a value, the next path on the same
    value is "not better" or "already seen". *)
Lemma second_path (v : V) (s s1 s2 : session) (b1 b2 : bool) :
  incorporate_path v s b1 s1 → incorporate_path v s1 b2 s2 →
  b2 = false ∧ current s2 = current s1 ∧ changes s2 = changes s1
  ∧ seen s2 = seen s1 ∧ world s2 = world s1
  ∧ predicate_calls (calls s2) = predicate_calls (calls s1).
Proof.
  intros Hfirst Hsecond.
  assert (left_is_better v (current s1) = true → v ∈ seen s1) as Hseen.
  { destruct Hfirst as [Hb|Hb Hs|w' Hb Hs Hp|w' Hb Hs Hp]; simpl;
      [congruence|done|intros _; by apply elem_of_union_l, elem_of_singleton..]. }
  unfold predicate_calls.
  destruct Hsecond as [Hb|Hb Hs|w' Hb Hs Hp|w' Hb Hs Hp]; simpl;
    rewrite ?omap_app; simpl; rewrite ?app_nil_r; try done;
    by destruct Hs; apply Hseen.
Qed.

(** X8. Calling [incorporate] a second time on the same value, right
    after the first, always answers False, does not call the predicate
    and leaves [current], [changes], the seen-set and the state of the
    predicate as the first call left them. *)
Theorem incorporate_again (value : V) (s : session) :
  let s1 := (incorporate value s).2 in
  let r2 := incorporate value s1 in
  r2.1 = false ∧ current r2.2 = current s1 ∧ changes r2.2 = changes s1
  ∧ seen r2.2 = seen s1 ∧ world r2.2 = world s1
  ∧ predicate_calls (calls r2.2) = predicate_calls (calls s1).
Proof.
  intros s1 r2.
  pose proof (incorporate_paths make_immutable left_is_better predicate value s)
    as Hfirst.
  pose proof (incorporate_paths make_immutable left_is_better predicate value s1)
    as Hsecond.
  exact (second_path _ _ _ _ _ _ Hfirst Hsecond).
Qed.

Lemma path_answer (v : V) (s s1 : session) (b : bool) :
  incorporate_path v s b s1 →
  (b = true ∧ current s1 = v) ∨ (b = false ∧ current s1 = current s).
Proof. destruct 1; simpl; auto. Qed.

(** X9. With an idempotent [make_immutable], [consider] is stable: called
    a second time on the same value it gives the answer of the first
    call, does not call the predicate and leaves [current], [changes],
    the seen-set and the state of the predicate as they were. *)
Theorem consider_again (value : V) (s : session) :
  (∀ x, make_immutable (make_immutable x) = make_immutable x) →
  let r1 := consider value s in
  let r2 := consider value r1.2 in
  r2.1 = r1.1 ∧ current r2.2 = current r1.2 ∧ changes r2.2 = changes r1.2
  ∧ seen r2.2 = seen r1.2 ∧ world r2.2 = world r1.2
  ∧ predicate_calls (calls r2.2) = predicate_calls (calls r1.2).
Proof.
  intros Hidem r1 r2. subst r2.
  destruct (decide (make_immutable value = current s)) as [Heq|Hne].
  { assert (r1 = (true, s)) as ->
      by (unfold r1, Shrinker.consider; by rewrite bool_decide_eq_true_2).
    cbn [fst snd]. unfold Shrinker.consider.
    by rewrite bool_decide_eq_true_2. }
  assert (r1 = incorporate (make_immutable value) s) as Hr1
    by (unfold r1, Shrinker.consider; by rewrite bool_decide_eq_false_2).
  pose proof (incorporate_paths make_immutable left_is_better predicate
                (make_immutable value) s) as Hfirst.
  rewrite Hidem, <- Hr1 in Hfirst. clearbody r1.
  destruct (path_answer _ _ _ _ Hfirst) as [[Hb Hcur]|[Hb Hcur]].
  - unfold Shrinker.consider. rewrite bool_decide_eq_true_2 by done.
    by rewrite Hb.
  - unfold Shrinker.consider. rewrite bool_decide_eq_false_2 by congruence.
    pose proof (incorporate_paths make_immutable left_is_better predicate
                  (make_immutable value) r1.2) as Hsecond.
    rewrite Hidem in Hsecond.
    destruct (second_path _ _ _ _ _ _ Hfirst Hsecond) as (Hb2 & Hrest).
    split; [congruence|exact Hrest].
Qed.

(** *** Termination of the full mode *)

Section Measure.
(** A measure that every improvement decreases. *)
Variable m : V → nat.
Hypothesis better_decreases :
  ∀ a b, left_is_better a b = true → (m a < m b)%nat.

(** Every acceptance pays for its unit of [changes] with the measure. *)
Lemma path_measure (v : V) (s : session) (b : bool) (s' : session) :
  incorporate_path v s b s' →
  changes s ≤ changes s'
  ∧ Z.of_nat (m (current s')) + (changes s' - changes s)
    ≤ Z.of_nat (m (current s)).
Proof.
  destruct 1 as [Hb|Hb Hs|w' Hb Hs Hp|w' Hb Hs Hp]; simpl; [lia..|].
  apply better_decreases in Hb. lia.
Qed.

Lemma run_step_measure (su : session * U) :
  changes su.1 ≤ changes (do_run_step su).1
  ∧ Z.of_nat (m (current (do_run_step su).1))
    + (changes (do_run_step su).1 - changes su.1)
    ≤ Z.of_nat (m (current su.1)).
Proof.
  apply (evolves_run_step make_immutable left_is_better predicate run_step
           (fun s s' =>
              changes s ≤ changes s'
              ∧ Z.of_nat (m (current s')) + (changes s' - changes s)
                ≤ Z.of_nat (m (current s)))).
  - intros s. lia.
  - intros s1 s2 s3. lia.
  - apply path_measure.
  - intros c s _. simpl. lia.
Qed.

Lemma short_circuit_measure (su : session * U) :
  changes su.1 ≤ changes (do_short_circuit su).2.1
  ∧ Z.of_nat (m (current (do_short_circuit su).2.1))
    + (changes (do_short_circuit su).2.1 - changes su.1)
    ≤ Z.of_nat (m (current su.1)).
Proof.
  apply (evolves_short_circuit make_immutable left_is_better predicate
           short_circuit
           (fun s s' =>
              changes s ≤ changes s'
              ∧ Z.of_nat (m (current s')) + (changes s' - changes s)
                ≤ Z.of_nat (m (current s)))).
  - intros s. lia.
  - intros s1 s2 s3. lia.
  - apply path_measure.
  - intros c s _. simpl. lia.
Qed.

Lemma preamble_measure (su : session * U) :
  changes su.1 ≤ changes (do_preamble su).1
  ∧ Z.of_nat (m (current (do_preamble su).1))
    + (changes (do_preamble su).1 - changes su.1)
    ≤ Z.of_nat (m (current su.1)).
Proof.
  apply (evolves_preamble make_immutable left_is_better predicate preamble
           (fun s s' =>
              changes s ≤ changes s'
              ∧ Z.of_nat (m (current s')) + (changes s' - changes s)
                ≤ Z.of_nat (m (current s)))).
  - intros s. lia.
  - intros s1 s2 s3. lia.
  - apply path_measure.
  - intros c s _. simpl. lia.
Qed.

Lemma before_passes_measure (su : session * U) :
  changes su.1 ≤ changes (do_preamble (do_short_circuit su).2).1
  ∧ Z.of_nat (m (current (do_preamble (do_short_circuit su).2).1))
    + (changes (do_preamble (do_short_circuit su).2).1 - changes su.1)
    ≤ Z.of_nat (m (current su.1)).
Proof.
  pose proof (short_circuit_measure su) as H1.
  pose proof (preamble_measure (do_short_circuit su).2) as H2. lia.
Qed.

(** The loop returns within as many tests as the measure of [current],
    plus one if the first test finds a change. *)
Lemma run_loop_terminates (fuel : nat) (prev : Z) (su : session * U) :
  Z.of_nat (m (current su.1)) + (if changes su.1 =? prev then 0 else 1)
  < Z.of_nat fuel →
  (run_loop fuel prev su).1 = Some tt.
Proof.
  revert prev su. induction fuel as [|fuel IH]; intros prev su Hfuel.
  - destruct (changes su.1 =? prev); lia.
  - cbn [Shrinker.run_loop].
    destruct (Z.eqb_spec (changes su.1) prev) as [Heq|Hne]; [done|].
    cbn [negb]. apply IH.
    destruct (run_step_measure su) as [Hmono Hpaid].
    destruct (Z.eqb_spec (changes (do_run_step su).1) (changes su.1)); lia.
Qed.

(** X10. When every improvement under [left_is_better] decreases a
    measure [m] in the natural numbers, the accepted improvements are
    paid for: in a session that starts from [__init__], at the end of
    [run] or at any point of it, [changes] plus the measure of [current]
    is at most the measure of the canonical seed. *)
Theorem changes_bounded (initial : V) (w : W) (rnd : R) (fl : bool) (u0 : U)
    (fuel : nat) :
  let s' := (run fuel (init initial w rnd fl, u0)).2.1 in
  0 ≤ changes s'
  ∧ changes s' + Z.of_nat (m (current s'))
    ≤ Z.of_nat (m (make_immutable initial)).
Proof.
  assert (changes (init initial w rnd fl, u0).1
          ≤ changes (run fuel (init initial w rnd fl, u0)).2.1
          ∧ Z.of_nat (m (current (run fuel (init initial w rnd fl, u0)).2.1))
            + (changes (run fuel (init initial w rnd fl, u0)).2.1
               - changes (init initial w rnd fl, u0).1)
            ≤ Z.of_nat (m (current (init initial w rnd fl, u0).1))) as Hrun.
  { apply (evolves_run
             (fun s s' : session =>
                changes s ≤ changes s'
                ∧ Z.of_nat (m (current s')) + (changes s' - changes s)
                  ≤ Z.of_nat (m (current s)))).
    - intros s. lia.
    - intros s1 s2 s3. lia.
    - apply path_measure.
    - intros c s _. simpl. lia. }
  simpl in *. lia.
Qed.

(** X11. When every improvement under [left_is_better] decreases a
    measure in the natural numbers, the full mode comes to an end: [run]
    on a fresh session returns within [m (seed) + 2] tests of its loop
    condition, and so [shrink] returns a value. *)
Theorem run_terminates (initial : V) (w : W) (rnd : R) (fl : bool) (u0 : U)
    (fuel : nat) :
  (m (make_immutable initial) + 2 ≤ fuel)%nat →
  (run fuel (init initial w rnd fl, u0)).1 = Some tt
  ∧ is_Some (shrink fuel initial w rnd fl u0).
Proof.
  intros Hfuel.
  assert ((run fuel (init initial w rnd fl, u0)).1 = Some tt) as Hrun.
  { unfold Shrinker.run.
    pose proof (before_passes_measure (init initial w rnd fl, u0)) as [Hc Hm].
    destruct (Shrinker.do_short_circuit _ _ _ _ _) as [[] su1]; [done|].
    cbn [fst snd] in *.
    destruct (full (do_preamble su1).1); [|done].
    apply run_loop_terminates.
    destruct (changes (do_preamble su1).1 =? -1); simpl in *; lia. }
  split; [exact Hrun|]. unfold Shrinker.shrink.
  destruct (Shrinker.run _ _ _ _ _ _ fuel _) as [[[]|] [s u]]; [by eexists|done].
Qed.
End Measure.
End Class.

(** *** The theorems on the countdown subclasses *)

Section Instances.
Import Countdown.


(** [consider] on 11, twice, from 12. *)
Lemma consider_again_witness :
  (∀ x : Z, id (id x) = id x)
  ∧ (consider id left_is_better (at_least 10) 11
       (consider id left_is_better (at_least 10) 11 (start 12 true).1).2).1
    = (consider id left_is_better (at_least 10) 11 (start 12 true).1).1.
Proof.
  assert (∀ x : Z, id (id x) = id x) as Hidem by reflexivity.
  split; [exact Hidem|].
  exact (proj1 (consider_again id left_is_better (at_least 10) 11
                  (start 12 true).1 Hidem)).
Defined.

(** The countdown on the natural numbers from 12: fourteen tests are
    enough, whatever the predicate. *)
Lemma run_terminates_witness :
  (∀ a b, NaturalCountdown.left_is_better a b = true →
          (NaturalCountdown.distance a < NaturalCountdown.distance b)%nat)
  ∧ (NaturalCountdown.distance (id 12%Z) + 2 ≤ 14)%nat
  ∧ is_Some (NaturalCountdown.shrink (at_least 10) 14 12 true).
Proof.
  assert (∀ a b, NaturalCountdown.left_is_better a b = true →
            (NaturalCountdown.distance a < NaturalCountdown.distance b)%nat)
    as Hm.
  { unfold NaturalCountdown.left_is_better, NaturalCountdown.distance.
    intros a b. lia. }
  assert (NaturalCountdown.distance (id 12%Z) + 2 ≤ 14)%nat as Hfuel
    by (vm_compute; lia).
  split; [exact Hm|]. split; [exact Hfuel|].
  exact (proj2 (run_terminates id NaturalCountdown.left_is_better (at_least 10)
                  short_circuit preamble run_step NaturalCountdown.distance Hm
                  12 tt tt true tt 14 Hfuel)).
Defined.

(** The same countdown: what it accepts and where it ends stay within
    the distance of the seed. *)
Lemma changes_bounded_witness :
  (∀ a b, NaturalCountdown.left_is_better a b = true →
          (NaturalCountdown.distance a < NaturalCountdown.distance b)%nat)
  ∧ changes (Shrinker.run id NaturalCountdown.left_is_better (at_least 10)
               short_circuit preamble run_step 14
               (Shrinker.init id 12 tt tt true, tt)).2.1
    + Z.of_nat (NaturalCountdown.distance
                  (current (Shrinker.run id NaturalCountdown.left_is_better
                              (at_least 10) short_circuit preamble run_step 14
                              (Shrinker.init id 12 tt tt true, tt)).2.1))
    ≤ Z.of_nat (NaturalCountdown.distance (id 12%Z)).
Proof.
  assert (∀ a b, NaturalCountdown.left_is_better a b = true →
            (NaturalCountdown.distance a < NaturalCountdown.distance b)%nat)
    as Hm.
  { unfold NaturalCountdown.left_is_better, NaturalCountdown.distance.
    intros a b. lia. }
  split; [exact Hm|].
  exact (proj2 (changes_bounded id NaturalCountdown.left_is_better
                  (at_least 10) short_circuit preamble run_step
                  NaturalCountdown.distance Hm 12 tt tt true tt 14)).
Defined.
End Instances.

End ShrinkerMore.
